(** * OmicsIntegrator2: command-line driver, summary statistics and aggregation

    A shallow embedding of [src/__main__.py] (argument defaults, the
    configuration mapping, the result loop of [main], the summary statistics)
    together with models of the operations of [graph.py] that the driver
    calls.  Dictionaries are [gmap]s, sets are [gset]s, the files written
    and lines printed by [main] are an explicit trace of events. *)

From Stdlib Require Import ZArith QArith Qcanon Lia Ascii.
From Stdlib Require Import Floats.
From stdpp Require Import base numbers gmap gmultiset strings list sorting pretty.

Local Open Scope string_scope.
Local Open Scope nat_scope.
Local Open Scope list_scope.

(** ** Python values held by the argparse namespace and by [params] *)

#[warnings="-register-all"]
Inductive pyval :=
| PyNone
| PyBool (b : bool)
| PyInt (z : Z)
| PyFloat (x : float)
| PyStr (s : string)
| PyList (l : list pyval).

(** [value is not None] *)
Definition is_not_None (v : pyval) : bool :=
  match v with PyNone => false | _ => true end.

(** Exceptions that the modelled code can raise. *)
Inductive exc (A : Type) :=
| Ok (a : A)
| KeyError (k : string)
| TypeError (k : string).
Arguments Ok {A} a.
Arguments KeyError {A} k.
Arguments TypeError {A} k.

#[global] Instance exc_ret : MRet exc := λ A a, Ok a.
#[global] Instance exc_bind : MBind exc := λ A B f m,
  match m with
  | Ok a => f a
  | KeyError k => KeyError k
  | TypeError k => TypeError k
  end.

(** ** networkx graphs

    A [networkx.Graph] keeps a dictionary from node to its attributes and a
    dictionary from edge to its attributes; [A] and [B] are the attribute
    records.  An undirected edge is stored once, under the orientation the
    interactome's edge list gives it. *)

Record nxgraph (A B : Type) := NxGraph {
  nx_nodes : gmap string A;
  nx_edges : gmap (string * string) B
}.
Arguments NxGraph {A B} nx_nodes nx_edges.
Arguments nx_nodes {A B} _.
Arguments nx_edges {A B} _.

Definition number_of_nodes {A B} (g : nxgraph A B) : nat := size (nx_nodes g).

(** Every edge joins two nodes of the graph (networkx keeps this by itself). *)
Definition no_dangling_edges {A B} (g : nxgraph A B) : Prop :=
  ∀ u v, is_Some (nx_edges g !! (u, v)) →
    is_Some (nx_nodes g !! u) ∧ is_Some (nx_nodes g !! v).

Definition is_subgraph {A B} (h g : nxgraph A B) : Prop :=
  nx_nodes h ⊆ nx_nodes g ∧ nx_edges h ⊆ nx_edges g.

(** Node attributes of a solver forest read by the statistics: the columns
    "type" and "degree" of the node table. *)
Record node_attrs := NodeAttrs { type : string; degree : Z }.

(** Forests come with [node_attrs]; augmented forests and robust networks
    carry a frequency on every node and edge. *)
Abbreviation forest_graph := (nxgraph node_attrs unit).
Abbreviation frequency_graph := (nxgraph Qc Qc).

(** *** Connected components, as [networkx.connected_components] *)

(** One round of breadth-first search: the nodes of [S] and their neighbours. *)
Definition bfs_step {A B} (g : nxgraph A B) (S : gset string) : gset string :=
  S ∪ list_to_set
        (flat_map (λ e : string * string,
                     (if decide (e.1 ∈ S) then [e.2] else []) ++
                     (if decide (e.2 ∈ S) then [e.1] else []))
                  (elements (dom (nx_edges g)))).

(** [_plain_bfs(G, source)]: no node is further than [number_of_nodes] rounds. *)
Definition plain_bfs {A B} (g : nxgraph A B) (source : string) : gset string :=
  Nat.iter (number_of_nodes g) (bfs_step g) {[ source ]}.

(** [for v in G: if v not in seen: c = _plain_bfs(G, v); seen.update(c); yield c] *)
Fixpoint components_from {A B} (g : nxgraph A B) (vs : list string)
    (seen : gset string) : list (gset string) :=
  match vs with
  | [] => []
  | v :: vs' =>
      if decide (v ∈ seen) then components_from g vs' seen
      else let c := plain_bfs g v in c :: components_from g vs' (seen ∪ c)
  end.

Definition connected_components {A B} (g : nxgraph A B) : list (gset string) :=
  components_from g (elements (dom (nx_nodes g))) ∅.

Definition number_connected_components {A B} (g : nxgraph A B) : nat :=
  length (connected_components g).

(** ** Summary statistics ([get_summary_statistics_from_nxgraph]) *)

(** What [np.log] yields on one integer degree: the logarithm of a positive
    number, minus infinity on 0, NaN on a negative number. *)
Inductive logdeg :=
| Ln (p : positive)
| LnNegInf
| LnNaN.

Definition np_log (d : Z) : logdeg :=
  match d with
  | Zpos p => Ln p
  | Z0 => LnNegInf
  | Zneg _ => LnNaN
  end.

(** What [Series.mean()] yields on a column of such values: [MeanLn ps]
    stands for the arithmetic mean of [ln p] over the non-empty list [ps]. *)
Inductive logmean :=
| MeanLn (ps : list positive)
| MeanNegInf
| MeanNaN.

Definition is_neginf (x : logdeg) : bool :=
  match x with LnNegInf => true | _ => false end.

(** The finite entries of a column. *)
Fixpoint finite_logs (s : list logdeg) : list positive :=
  match s with
  | [] => []
  | Ln p :: s' => p :: finite_logs s'
  | _ :: s' => finite_logs s'
  end.

(** [Series.mean()] skips NaN entries ([skipna=True]); the mean of no entry
    is NaN, and a sum that contains minus infinity is minus infinity. *)
Definition series_mean (s : list logdeg) : logmean :=
  if existsb is_neginf s then MeanNegInf
  else match finite_logs s with
       | [] => MeanNaN
       | ps => MeanLn ps
       end.

(** Modelled from the spec: [get_networkx_graph_as_node_edge_dataframes] of
    graph.py is not part of the sources at hand; the statistics are "a pure
    function over one result's node/edge tables", so the node table has one
    row per node (its attributes) and the edge table one row per edge. *)
Definition get_networkx_graph_as_node_edge_dataframes {A B} (g : nxgraph A B)
    : list (string * A) * list ((string * string) * B) :=
  (map_to_list (nx_nodes g), map_to_list (nx_edges g)).

Record summary_row := SummaryRow {
  tag : string;
  n_all : nat;
  n_steiner : nat;
  n_prizes : nat;
  logDeg_all : logmean;
  logDeg_steiner : logmean;
  logDeg_prizes : logmean;
  n_components : nat;
  n_singletons : nat
}.

(** [np.log(df["degree"]).mean()] *)
Definition log_degree_mean (df : list (string * node_attrs)) : logmean :=
  series_mean (map (λ row, np_log (degree row.2)) df).

Definition get_summary_statistics_from_nxgraph {B} (g : nxgraph node_attrs B)
    (tag : string) : summary_row :=
  let '(nxgraph_nodes_df, nxgraph_edges_df) :=
    get_networkx_graph_as_node_edge_dataframes g in
  let steiners := filter (λ row, type row.2 = "steiner") nxgraph_nodes_df in
  let prizes := filter (λ row, type row.2 ≠ "steiner") nxgraph_nodes_df in
  let connected_components_ := number_connected_components g in
  let singletons :=
    length (filter (λ x : gset string, size x = 1) (connected_components g)) in
  {| tag := tag;
     n_all := length nxgraph_nodes_df;
     n_steiner := length steiners;
     n_prizes := length prizes;
     logDeg_all := log_degree_mean nxgraph_nodes_df;
     logDeg_steiner := log_degree_mean steiners;
     logDeg_prizes := log_degree_mean prizes;
     n_components := connected_components_;
     n_singletons := singletons |}.

(** ** Aggregator: the robust network

    Modelled from the spec: [get_networkx_subgraph_from_randomizations] of
    graph.py is not part of the sources at hand.  The spec describes the
    Robust Network as "a subgraph of the Augmented Forest, size-capped,
    obtained by a frequency-ordered selection", "preferring higher-frequency
    nodes", whose "terminal condition" is that "either all elements are
    included or the node cap is reached" and which has "no dangling edges":
    the nodes are ordered by decreasing frequency, the first [max_size] are
    kept, and the edges kept are those of the augmented forest with both
    endpoints kept. *)

Definition higher_frequency (x y : string * Qc) : Prop := (y.2 ≤ x.2)%Qc.

#[global] Instance higher_frequency_dec : RelDecision higher_frequency.
Proof. intros x y. unfold higher_frequency. apply _. Defined.

Definition top_nodes (g : frequency_graph) (max_size : nat) : list (string * Qc) :=
  take max_size (merge_sort higher_frequency (map_to_list (nx_nodes g))).

Definition get_networkx_subgraph_from_randomizations (g : frequency_graph)
    (max_size : nat) : frequency_graph :=
  let keep : gmap string Qc := list_to_map (top_nodes g max_size) in
  NxGraph keep
    (filter (λ e : (string * string) * Qc,
               is_Some (keep !! e.1.1) ∧ is_Some (keep !! e.1.2))
            (nx_edges g)).

(** ** The command line ([argparse]) *)

(** What the user typed, as argparse has converted it: the three required
    options ([opt_output] after the [FullPaths] action, so an absolute
    path), and each optional one if it was given. *)
Record invocation := Invocation {
  opt_edge : string;
  opt_prize : string;
  opt_output : string;
  opt_w : option (list float);
  opt_b : option (list float);
  opt_g : option (list float);
  opt_noise : option float;
  opt_noisy_edges : option Z;
  opt_random_terminals : option Z;
  opt_knockout : option (list string);
  opt_dummyMode : option string;
  opt_excludeTerminals : bool;
  opt_seed : option Z
}.

(** The namespace [args] returned by [parser.parse_args()]. *)
Module Args.
Record Namespace := Build {
  edge_file : string;
  prize_file : string;
  output_dir : string;
  w : pyval;
  b : pyval;
  g : pyval;
  noise : pyval;
  noisy_edges_repetitions : pyval;
  random_terminals_repetitions : pyval;
  knockout : pyval;
  dummy_mode : pyval;
  exclude_terminals : pyval;
  seed : pyval
}.
End Args.

(** An optional argument that was given holds its converted value; one that
    was not holds its [default=], which is [None] when there is none. *)
Definition or_default {A} (conv : A → pyval) (default : pyval) (o : option A) : pyval :=
  match o with
  | Some x => conv x
  | None => default
  end.

(** The float written [0.1] in Python. *)
Definition float_0_1 : float := 0x1.999999999999ap-4%float.

Definition parse_args (inv : invocation) : Args.Namespace :=
  {| Args.edge_file := opt_edge inv;
     Args.prize_file := opt_prize inv;
     Args.output_dir := opt_output inv;
     Args.w := or_default (λ l, PyList (PyFloat <$> l)) (PyList [PyInt 6]) (opt_w inv);
     Args.b := or_default (λ l, PyList (PyFloat <$> l)) (PyList [PyInt 1]) (opt_b inv);
     Args.g := or_default (λ l, PyList (PyFloat <$> l)) (PyList [PyInt 20]) (opt_g inv);
     Args.noise := or_default PyFloat (PyFloat float_0_1) (opt_noise inv);
     Args.noisy_edges_repetitions := or_default PyInt (PyInt 0) (opt_noisy_edges inv);
     Args.random_terminals_repetitions :=
       or_default PyInt (PyInt 0) (opt_random_terminals inv);
     Args.knockout := or_default (λ l, PyList (PyStr <$> l)) (PyList []) (opt_knockout inv);
     Args.dummy_mode := or_default PyStr PyNone (opt_dummyMode inv);
     Args.exclude_terminals := PyBool (opt_excludeTerminals inv);
     Args.seed := or_default PyInt PyNone (opt_seed inv) |}.

(** The dictionary literal of [main], line 115. *)
Definition params_items (args : Args.Namespace) : list (string * pyval) :=
  [ ("w", Args.w args); ("b", Args.b args); ("g", Args.g args);
    ("noise", Args.noise args); ("dummy_mode", Args.dummy_mode args);
    ("exclude_terminals", Args.exclude_terminals args); ("seed", Args.seed args);
    ("noisy_edges_repetitions", Args.noisy_edges_repetitions args);
    ("random_terminals_repetitions", Args.random_terminals_repetitions args) ].

(** [{param: value for param, value in params.items() if value is not None}] *)
Definition params_of (args : Args.Namespace) : gmap string pyval :=
  list_to_map (filter (λ kv : string * pyval, is_not_None kv.2) (params_items args)).

(** [params[k]] *)
Definition getitem (params : gmap string pyval) (k : string) : exc pyval :=
  match params !! k with
  | Some v => Ok v
  | None => KeyError k
  end.

(** The repetition counts are compared as integers; another kind of value
    under key [k] is outside this model. *)
Definition as_int (k : string) (v : pyval) : exc Z :=
  match v with
  | PyInt z => Ok z
  | _ => TypeError k
  end.

(** ** Output of [main]: files written and lines printed, in order *)

Inductive graph_value :=
| ForestValue (g : forest_graph)
| FrequencyValue (g : frequency_graph).

(** A table handed to [DataFrame.to_csv]. *)
Inductive artefact :=
| NodesTable (g : graph_value)
| EdgesTable (g : graph_value)
| SummaryTable (rows : list summary_row).

(** [WriteFile] is a call of [DataFrame.to_csv] with its path.
    [OutputPickle] and [OutputJson] are the calls of the two writers of
    graph.py, [output_networkx_graph_as_pickle] and
    [output_networkx_graph_as_json_for_cytoscapejs], which are not among the
    sources: the event keeps the arguments of the call, and what the writer
    does with them is not modelled. *)
Inductive event :=
| Makedirs (path : string)
| WriteFile (path : string) (a : artefact)
| OutputPickle (g : graph_value) (output_dir filename : string)
| OutputJson (g : graph_value) (output_dir filename : string)
| Print (line : string).

(** *** [os.path] (posixpath) *)

(** [s.startswith(prefix)] *)
Fixpoint startswith (s prefix : string) {struct prefix} : bool :=
  match prefix, s with
  | EmptyString, _ => true
  | String a prefix', String b s' => Ascii.eqb a b && startswith s' prefix'
  | String _ _, EmptyString => false
  end.

Definition starts_with_slash (path : string) : bool := startswith path "/".

Fixpoint ends_with_slash (path : string) : bool :=
  match path with
  | EmptyString => false
  | String c EmptyString => Ascii.eqb c "/"%char
  | String _ rest => ends_with_slash rest
  end.

(** [os.path.join(a, b)]: an absolute [b] replaces [a]; a separator is
    added unless [a] is empty or ends with one. *)
Definition path_join (a b : string) : string :=
  if starts_with_slash b then b
  else if bool_decide (a = "") || ends_with_slash a then a +:+ b
  else a +:+ "/" +:+ b.

(** [path.split('/')] *)
Fixpoint split_slash (path : string) : list string :=
  match path with
  | EmptyString => [""]
  | String c rest =>
      if Ascii.eqb c "/"%char then "" :: split_slash rest
      else match split_slash rest with
           | comp :: comps => String c comp :: comps
           | [] => [String c ""]
           end
  end.

(** One round of the loop of [normpath]; [new_comps] is kept last
    component first. *)
Definition normpath_step (initial_slashes : nat) (new_comps : list string)
    (comp : string) : list string :=
  if bool_decide (comp = "" ∨ comp = ".") then new_comps
  else if bool_decide (comp ≠ ".."
                       ∨ (initial_slashes = 0 ∧ new_comps = [])
                       ∨ head new_comps = Some "..")
       then comp :: new_comps
       else tail new_comps.

(** The leading slashes that [normpath] keeps: two when the path starts with
    exactly two, one when it starts with one or with three or more. *)
Definition initial_slashes (path : string) : nat :=
  if starts_with_slash path then
    if startswith path "//" && negb (startswith path "///") then 2 else 1
  else 0.

(** [os.path.normpath] *)
Definition normpath (path : string) : string :=
  if bool_decide (path = "") then "."
  else
    let comps :=
      rev (fold_left (normpath_step (initial_slashes path)) (split_slash path) []) in
    let path' :=
      Nat.iter (initial_slashes path) (String "/"%char) ""
      +:+ Stdlib.Strings.String.concat "/" comps in
    if bool_decide (path' = "") then "." else path'.

(** [os.path.abspath], with [cwd] for [os.getcwd()]. *)
Definition abspath (cwd path : string) : string :=
  normpath (if starts_with_slash path then path else path_join cwd path).

#[global] Arguments path_join : simpl never.
#[global] Arguments normpath : simpl never.
#[global] Arguments abspath : simpl never.

(** [s.replace("/", "")] *)
Fixpoint remove_slashes (s : string) : string :=
  match s with
  | EmptyString => EmptyString
  | String c s' =>
      if Ascii.eqb c "/"%char then remove_slashes s' else String c (remove_slashes s')
  end.

Definition output_dataframe_to_tsv (cwd : string) (table : artefact)
    (output_dir filename : string) : list event :=
  let path := path_join (abspath cwd output_dir) filename in
  [WriteFile path table].

(** Returns the events and [output_dir]. *)
Definition output_networkx_graph_as_files (cwd : string) (nxgraph : graph_value)
    (project_dir tag subfolder : string) : list event * string :=
  let output_dir := path_join (abspath cwd project_dir) subfolder in
  ([Makedirs (abspath cwd project_dir);
    OutputPickle nxgraph output_dir (tag +:+ ".gpickle")]
   ++ output_dataframe_to_tsv cwd (NodesTable nxgraph) output_dir (tag +:+ ".nodes.tsv")
   ++ output_dataframe_to_tsv cwd (EdgesTable nxgraph) output_dir (tag +:+ ".edges.tsv")
   ++ [OutputJson nxgraph output_dir
         (tag +:+ "." +:+ remove_slashes subfolder +:+ ".json")],
   output_dir).

(** [stats_df.sort_values(by=["n_singletons", "n_all"])]: ascending, by the
    first column and then by the second, rows with equal keys in their
    original order. *)
Definition row_leb (x y : summary_row) : bool :=
  ((n_singletons x <? n_singletons y)
   || ((n_singletons x =? n_singletons y) && (n_all x <=? n_all y)))%nat.

Fixpoint insert_row (x : summary_row) (l : list summary_row) : list summary_row :=
  match l with
  | [] => [x]
  | y :: l' => if row_leb x y then x :: l else y :: insert_row x l'
  end.

Definition sort_values (rows : list summary_row) : list summary_row :=
  foldr insert_row [] rows.

(** ** [main] *)

(** One element of [results]: [(tag, forest, augmented_forest)]. *)
Abbreviation result := (string * forest_graph * frequency_graph)%type.

(** What the loop of [main] updates: the output so far and [summary_stats]. *)
Record run_state := RunState {
  trace : list event;
  summary_stats : list summary_row
}.

(** The body of [for tag, forest, augmented_forest in results:]. *)
Definition loop_body (cwd : string) (args : Args.Namespace)
    (params : gmap string pyval) (st : run_state) (r : result) : exc run_state :=
  let '(tag, forest, augmented_forest) := r in
  if decide (0 < number_of_nodes augmented_forest) then
    noisy ← getitem params "noisy_edges_repetitions" ≫= as_int "noisy_edges_repetitions";
    random ← getitem params "random_terminals_repetitions"
               ≫= as_int "random_terminals_repetitions";
    if ((noisy =? random) && (random =? 0))%Z then
      Ok {| trace := trace st
              ++ (output_networkx_graph_as_files cwd (ForestValue forest)
                    (Args.output_dir args) tag "forest").1;
            summary_stats := summary_stats st
              ++ [get_summary_statistics_from_nxgraph forest tag] |}
    else
      let robust_network :=
        get_networkx_subgraph_from_randomizations augmented_forest 400 in
      Ok {| trace := trace st
              ++ (output_networkx_graph_as_files cwd (FrequencyValue augmented_forest)
                    (Args.output_dir args) tag "augmented_forest").1
              ++ (output_networkx_graph_as_files cwd (FrequencyValue robust_network)
                    (Args.output_dir args) tag "robust_network").1;
            summary_stats := summary_stats st |}
  else
    Ok {| trace := trace st ++ [Print (tag +:+ " is empty, results not printed.")];
          summary_stats := summary_stats st |}.

Fixpoint run_loop (cwd : string) (args : Args.Namespace)
    (params : gmap string pyval) (st : run_state) (results : list result)
    : exc run_state :=
  match results with
  | [] => Ok st
  | r :: results' =>
      st' ← loop_body cwd args params st r; run_loop cwd args params st' results'
  end.

(** [if len(summary_stats) > 0: ... stats_df.to_csv(...)] *)
Definition write_summary (args : Args.Namespace) (st : run_state) : list event :=
  match summary_stats st with
  | [] => trace st
  | rows =>
      trace st ++ [WriteFile (Args.output_dir args +:+ "/summary_stats.tsv")
                     (SummaryTable (sort_values rows))]
  end.

(** [main], run in the directory [cwd], given
    [Graph(edge_file, {}).grid_search_randomizations] as the function
    [grid_search_randomizations edge_file prize_file params]; the result is
    the output of the run, or the exception that ended it. *)
Definition main (cwd : string)
    (grid_search_randomizations : string → string → gmap string pyval → list result)
    (inv : invocation) : exc (list event) :=
  let args := parse_args inv in
  let params := params_of args in
  let results :=
    grid_search_randomizations (Args.edge_file args) (Args.prize_file args) params in
  st ← run_loop cwd args params {| trace := []; summary_stats := [] |} results;
  Ok (write_summary args st).

(** ** Aggregator: merging forests into an augmented forest

    Modelled from the spec: the merge of graph.py is not part of the sources
    at hand.  The spec has it build "the union of all node and edge sets
    across the input forests" and annotate "each node and edge with
    frequency = occurrences / len(forests)", as "a reduce/fold over
    immutable per-repetition results into one accumulator", an "associative
    merge".  The accumulator counts, for every element, the forests that
    contain it; [count_merge] is the merge of two accumulators. *)

Definition frequency (occurrences total : nat) : Qc :=
  (Qc_of_Z (Z.of_nat occurrences) / Qc_of_Z (Z.of_nat total))%Qc.

Section Frequencies.
Context `{Countable K}.

Definition count_of {V} (m : gmap K V) : gmap K nat := (λ _, 1) <$> m.

Definition count_merge (a b : gmap K nat) : gmap K nat :=
  union_with (λ x y, Some (x + y)) a b.

Definition occurrence_counts {V} (ms : list (gmap K V)) : gmap K nat :=
  foldr (λ m acc, count_merge (count_of m) acc) ∅ ms.

Definition frequencies {V} (ms : list (gmap K V)) : gmap K Qc :=
  (λ c, frequency c (length ms)) <$> occurrence_counts ms.

(** The number of maps of [ms] that have the key [k]. *)
Definition occurrences {V} (k : K) (ms : list (gmap K V)) : nat :=
  length (filter (λ m : gmap K V, is_Some (m !! k)) ms).
End Frequencies.

Definition merge_to_augmented_forest {A B} (forests : list (nxgraph A B))
    : frequency_graph :=
  NxGraph (frequencies (nx_nodes <$> forests)) (frequencies (nx_edges <$> forests)).

(** The frequency of a node, 0 for a node that is not in the graph. *)
Definition node_frequency (g : frequency_graph) (n : string) : Qc :=
  default 0%Qc (nx_nodes g !! n).

Definition edge_frequency (g : frequency_graph) (e : string * string) : Qc :=
  default 0%Qc (nx_edges g !! e).

(** ** Grid search: cells and run tags

    Modelled from the spec: [Graph.grid_search_randomizations] of graph.py is
    not part of the sources at hand.  The spec has the engine produce "one
    result per element of the Cartesian product of all parameter lists", and
    a Run Tag be "a deterministic string key identifying a grid cell, e.g.
    encoding w, b, g, and (if applicable) the randomization repetition index
    and kind (noisy-edge vs random-terminal)".  A tag writes every parameter
    name with its value, each closed by the separator, and then the
    repetition label if there is one.  A value is a float, as [type=float]
    makes the values of -w, -b and -g; it is written as its sign, its
    mantissa and its binary exponent, so that two floats are written alike
    only if they are the same float. *)

Inductive perturbation := NoisyEdges | RandomTerminals.

Definition perturbation_name (k : perturbation) : string :=
  match k with
  | NoisyEdges => "noisy_edges"
  | RandomTerminals => "random_terminals"
  end.

(** Does the character [c] occur in [s]? *)
Fixpoint has_char (c : ascii) (s : string) : bool :=
  match s with
  | EmptyString => false
  | String c' s' => Ascii.eqb c' c || has_char c s'
  end.

Definition sign_mark (negative : bool) : string := if negative then "-" else "+".

Definition render_scalar (x : float) : string :=
  match Prim2SF x with
  | S754_zero s => sign_mark s +:+ "0"
  | S754_infinity s => sign_mark s +:+ "inf"
  | S754_nan => "nan"
  | S754_finite s m e => sign_mark s +:+ pretty (Npos m) +:+ "p" +:+ pretty e
  end.

Definition repetition_suffix (r : option (perturbation * nat)) : string :=
  match r with
  | None => ""
  | Some (k, i) => perturbation_name k +:+ "_" +:+ pretty i
  end.

(** The Cartesian product of the value lists, first list slowest. *)
Fixpoint product {V} (value_lists : list (list V)) : list (list V) :=
  match value_lists with
  | [] => [[]]
  | l :: ls => x ← l; (cons x) <$> product ls
  end.

Fixpoint cell_tag (names : list string) (cell : list float) : string :=
  match names, cell with
  | name :: names', v :: cell' =>
      name +:+ "_" +:+ render_scalar v +:+ "_" +:+ cell_tag names' cell'
  | _, _ => ""
  end.

Definition run_tag (names : list string) (cell : list float)
    (r : option (perturbation * nat)) : string :=
  cell_tag names cell +:+ repetition_suffix r.

(** The tags emitted for a configuration [config] (parameter name and
    value list, in order) and the repetition groups [reps] each cell is
    run for; [reps] is [[None]] when no randomization is configured. *)
Definition grid_tags (config : list (string * list float))
    (reps : list (option (perturbation * nat))) : list string :=
  cell ← product config.*2; r ← reps; [run_tag config.*1 cell r].

(** The number of cells of a grid: the product of the sizes of its lists. *)
Definition grid_size {V} (value_lists : list (list V)) : nat :=
  foldr (λ l n, length l * n) 1 value_lists.

(** ** Perturbation generator: random terminals

    Modelled from the spec: the random-terminals generator of graph.py is
    not part of the sources at hand.  The spec has it "construct a new Prize
    Assignment of the same size (same number of nonzero-prize nodes) as the
    original, but with prize values reassigned to randomly chosen nodes",
    where one may "bucket nodes by degree and sample replacements from the
    same bucket", and "if an exclude_terminals flag is set, original
    terminal nodes are excluded from being selected"; it "returns a new
    Prize Assignment; the graph and costs are unchanged".  Every terminal,
    in turn, hands its prize to a node drawn among the nodes of the
    interactome that have its degree, have not been drawn yet and, if the
    flag is set, are not original terminals.  The spec does not say what
    happens when no such node is left: no assignment is returned then. *)

Abbreviation interactome := (nxgraph unit Qc).

(** The number of edges of the interactome at node [n]. *)
Definition node_degree (g : interactome) (n : string) : nat :=
  size (filter (λ e : (string * string) * Qc, e.1.1 = n ∨ e.1.2 = n) (nx_edges g)).

(** A pseudo-random generator: a fixed sequence of draws (the seed decides
    which) and the number of draws made so far. *)
Record rng := Rng { draws : nat → nat; position : nat }.


(** What a perturbation reads and updates: the interactome with its edge
    costs, the original prize assignment, and the generator. *)
Record instance := Instance_ {
  graph : interactome;
  prizes : gmap string Qc;
  generator : rng
}.

(** The terminals: the nodes with a nonzero prize. *)
Definition terminals (p : gmap string Qc) : gmap string Qc :=
  filter (λ kv : string * Qc, kv.2 ≠ 0%Qc) p.


Definition bucket (g : interactome) (d : nat) : list string :=
  filter (λ n, node_degree g n = d) (elements (dom (nx_nodes g))).

(** The nodes of degree [d] that may be selected: all of them, or those
    that are not original terminals if [exclude_terminals] is set. *)
Definition selectable (g : interactome) (exclude_terminals : bool)
    (originals : gset string) (d : nat) : list string :=
  filter (λ n, Is_true exclude_terminals → n ∉ originals) (bucket g d).




(** For each terminal, the interactome has at least as many selectable
    nodes of its degree as there are terminals of that degree. *)
Definition enough_candidates (inst : instance) (exclude_terminals : bool) : Prop :=
  let g := graph inst in
  let ts := map_to_list (terminals (prizes inst)) in
  Forall (λ tp : string * Qc,
            length (filter (λ tp' : string * Qc,
                              node_degree g tp'.1 = node_degree g tp.1) ts)
            ≤ length (selectable g exclude_terminals (dom (terminals (prizes inst)))
                        (node_degree g tp.1)))
         ts.


#[global] Instance enough_candidates_dec (inst : instance) (exclude_terminals : bool) :
  Decision (enough_candidates inst exclude_terminals).
Proof. unfold enough_candidates. apply _. Defined.



(** ** Properties of the summary statistics *)

(** A mean log-degree that is a number: neither NaN nor minus infinity. *)
Definition is_number (m : logmean) : Prop :=
  match m with MeanLn _ => True | _ => False end.

(** The three means of a row are numbers. *)
Definition log_means_guarded (row : summary_row) : Prop :=
  is_number (logDeg_all row) ∧ is_number (logDeg_steiner row)
  ∧ is_number (logDeg_prizes row).

(** [m] is the mean log-degree of the nodes of [g] that satisfy [P], all
    of them taken in: minus infinity as soon as one has degree 0, NaN when
    none has a degree of 0 or more, a number otherwise. *)
Definition mean_log_degree_of {B} (g : nxgraph node_attrs B)
    (P : node_attrs → Prop) (m : logmean) : Prop :=
  (m = MeanNegInf ↔
     ∃ n a, nx_nodes g !! n = Some a ∧ P a ∧ degree a = 0%Z) ∧
  (m = MeanNaN ↔
     ∀ n a, nx_nodes g !! n = Some a → P a → (degree a < 0)%Z) ∧
  (is_number m ↔
     (∃ n a, nx_nodes g !! n = Some a ∧ P a ∧ (0 < degree a)%Z) ∧
     (∀ n a, nx_nodes g !! n = Some a → P a → degree a ≠ 0%Z)).

(** A forest of one prize node whose "degree" attribute is 0. *)
Definition degree_zero_graph : forest_graph :=
  NxGraph {[ "A" := NodeAttrs "prize" 0 ]} ∅.

(** A forest of two prize nodes joined by an edge, with no Steiner node. *)
Definition two_prizes_graph : forest_graph :=
  NxGraph {[ "A" := NodeAttrs "prize" 1; "B" := NodeAttrs "prize" 1 ]}
          {[ ("A", "B") := () ]}.

(** ** Properties of [main] *)

(** Both repetition counts are 0: the run is a single test run. *)
Definition single_run (inv : invocation) : bool :=
  bool_decide (default 0%Z (opt_noisy_edges inv) = 0%Z
               ∧ default 0%Z (opt_random_terminals inv) = 0%Z).

(** What the loop of [main] writes or prints for one result. *)
Definition result_events (cwd output_dir : string) (single : bool) (r : result)
    : list event :=
  if decide (0 < number_of_nodes r.2) then
    if single then
      (output_networkx_graph_as_files cwd (ForestValue r.1.2) output_dir r.1.1
         "forest").1
    else
      (output_networkx_graph_as_files cwd (FrequencyValue r.2) output_dir r.1.1
         "augmented_forest").1
      ++ (output_networkx_graph_as_files cwd
            (FrequencyValue (get_networkx_subgraph_from_randomizations r.2 400))
            output_dir r.1.1 "robust_network").1
  else [Print (r.1.1 +:+ " is empty, results not printed.")].

(** The Summary Rows of a run: one for each result with a non-empty
    augmented forest, in the order of the results, in a single test run;
    none otherwise. *)
Definition summary_rows (single : bool) (results : list result) : list summary_row :=
  if single then
    (λ r : result, get_summary_statistics_from_nxgraph r.1.2 r.1.1)
      <$> filter (λ r : result, 0 < number_of_nodes r.2) results
  else [].

Definition is_summary_table (e : event) : bool :=
  match e with
  | WriteFile _ (SummaryTable _) => true
  | _ => false
  end.

(** The order of [sort_values]. *)
Definition row_le (x y : summary_row) : Prop := row_leb x y = true.

(** The output ends with a table that has one row for every result. *)
Definition summary_row_per_result (results : list result) (out : list event) : Prop :=
  ∃ path rows, last out = Some (WriteFile path (SummaryTable rows))
    ∧ tag <$> rows ≡ₚ (λ r : result, r.1.1) <$> results.

(** ** Sample runs *)

(** The directory the sample runs are started in. *)
Definition sample_cwd : string := "/home/user".

(** Only the three required options are given. *)
Definition bare_invocation : invocation :=
  Invocation "edges.tsv" "prizes.tsv" "/out"
    None None None None None None None None false None.

(** [--noisy_edges 3] is given as well. *)
Definition noisy_invocation : invocation :=
  Invocation "edges.tsv" "prizes.tsv" "/out"
    None None None None (Some 3%Z) None None None false None.

(** The path A - B - C, with the Steiner node B between two prize nodes. *)
Definition path_graph : forest_graph :=
  NxGraph {[ "A" := NodeAttrs "prize" 1; "B" := NodeAttrs "steiner" 2;
             "C" := NodeAttrs "prize" 1 ]}
          {[ ("A", "B") := (); ("B", "C") := () ]}.

Definition empty_forest : forest_graph := NxGraph ∅ ∅.
Definition empty_augmented_forest : frequency_graph := NxGraph ∅ ∅.

(** A grid search that yields one non-empty result. *)
Definition one_cell (_ _ : string) (_ : gmap string pyval) : list result :=
  [("w_6_b_1_g_20", path_graph,
    merge_to_augmented_forest [path_graph; path_graph; path_graph])].

(** A grid search that yields an empty result between two non-empty ones. *)
Definition three_cells (_ _ : string) (_ : gmap string pyval) : list result :=
  [("w_6_b_1_g_20", path_graph, merge_to_augmented_forest [path_graph]);
   ("w_6_b_2_g_20", empty_forest, empty_augmented_forest);
   ("w_6_b_3_g_20", path_graph, merge_to_augmented_forest [path_graph])].

(** Three forests over the nodes A, B and C. *)
Definition forest_ab : nxgraph unit unit :=
  NxGraph {[ "A" := (); "B" := () ]} {[ ("A", "B") := () ]}.
Definition forest_bc : nxgraph unit unit :=
  NxGraph {[ "B" := (); "C" := () ]} {[ ("B", "C") := () ]}.
Definition forest_abc : nxgraph unit unit :=
  NxGraph {[ "A" := (); "B" := (); "C" := () ]}
          {[ ("A", "B") := (); ("B", "C") := () ]}.

(** A grid of one value for w and two for b and for g. *)
Definition sample_grid : list (string * list float) :=
  [("w", [6%float]); ("b", [1%float; 2%float]); ("g", [20%float; 30%float])].

(** ** Properties of the connected components *)

(** [u] and [v] are joined by an edge, in either orientation. *)
Definition adjacent {A B} (g : nxgraph A B) (u v : string) : Prop :=
  is_Some (nx_edges g !! (u, v)) ∨ is_Some (nx_edges g !! (v, u)).

(** ** Properties of the output and of the options *)

(** A node all of whose edges are loops on itself. *)
Definition isolated {A B} (g : nxgraph A B) (v : string) : Prop :=
  Forall (λ e : string * string, e.1 = v ∨ e.2 = v → e = (v, v))
         (elements (dom (nx_edges g))).

#[global] Instance isolated_dec {A B} (g : nxgraph A B) (v : string) :
  Decision (isolated g v).
Proof. unfold isolated. apply _. Defined.

(** The paths handed to [to_csv], and the lines printed, in order. *)
Definition written_paths (out : list event) : list string :=
  omap (λ e, match e with WriteFile path _ => Some path | _ => None end) out.

Definition printed_lines (out : list event) : list string :=
  omap (λ e, match e with Print line => Some line | _ => None end) out.

(** The invocation [inv] with its [--knockout] option replaced. *)
Definition with_knockout (knockout : option (list string)) (inv : invocation)
    : invocation :=
  {| opt_edge := opt_edge inv; opt_prize := opt_prize inv;
     opt_output := opt_output inv; opt_w := opt_w inv; opt_b := opt_b inv;
     opt_g := opt_g inv; opt_noise := opt_noise inv;
     opt_noisy_edges := opt_noisy_edges inv;
     opt_random_terminals := opt_random_terminals inv;
     opt_knockout := knockout; opt_dummyMode := opt_dummyMode inv;
     opt_excludeTerminals := opt_excludeTerminals inv; opt_seed := opt_seed inv |}.

(** The names under which [params] can hold a value. *)
Definition params_keys : list string :=
  ["w"; "b"; "g"; "noise"; "dummy_mode"; "exclude_terminals"; "seed";
   "noisy_edges_repetitions"; "random_terminals_repetitions"].

(** The directory [a] as [os.path.join] puts it before a relative name. *)
Definition dir_prefix (a : string) : string :=
  if bool_decide (a = "") || ends_with_slash a then a else a +:+ "/".

(** The endings of the two tables that [output_networkx_graph_as_files]
    writes for one graph. *)
Definition table_endings : list string := [".nodes.tsv"; ".edges.tsv"].

(** The paths that [output_networkx_graph_as_files], called in [cwd] with
    [project_dir], [tag] and [subfolder], hands to [to_csv]. *)
Definition graph_files (cwd project_dir subfolder tag : string) : list string :=
  (λ e, path_join (abspath cwd (path_join (abspath cwd project_dir) subfolder))
                  (tag +:+ e)) <$> table_endings.

(** A tag that [os.path.join] takes as a relative name. *)
Definition relative_tag (tag : string) : Prop := starts_with_slash tag = false.

(** The subfolders that [main] writes into. *)
Definition main_subfolders : list string :=
  ["forest"; "augmented_forest"; "robust_network"].

(** The tags of the results whose augmented forest is not empty. *)
Definition reported_tags (results : list result) : list string :=
  (λ r : result, r.1.1) <$> filter (λ r : result, 0 < number_of_nodes r.2) results.

(** Every optional argument is given. *)
Definition full_invocation : invocation :=
  Invocation "edges.tsv" "prizes.tsv" "/out"
    (Some [2%float; 4%float]) (Some [1%float]) (Some [3%float])
    (Some 0.5%float) (Some 5%Z) (Some 7%Z) (Some ["TP53"]) (Some "all") true
    (Some 42%Z).

(** Two results stand for the same output of [main]: the same tag, and, in a
    single test run, the same forest with augmented forests that are both
    empty or both not, otherwise the same augmented forest. *)
Definition same_for_main (single : bool) (r r' : result) : Prop :=
  r.1.1 = r'.1.1
  ∧ if single
    then r.1.2 = r'.1.2 ∧ (0 < number_of_nodes r.2 ↔ 0 < number_of_nodes r'.2)
    else r.2 = r'.2.

(** [three_cells] with other augmented forests, empty where they were: the
    first one lacks the node C, in the third one the nodes B and C have the
    frequency 1/2. *)
Definition three_cells_other (_ _ : string) (_ : gmap string pyval) : list result :=
  [("w_6_b_1_g_20", path_graph, merge_to_augmented_forest [two_prizes_graph]);
   ("w_6_b_2_g_20", empty_forest, empty_augmented_forest);
   ("w_6_b_3_g_20", path_graph,
    merge_to_augmented_forest [path_graph; degree_zero_graph])].

(** * Theorems *)

(** ** Lists and maps *)

Section ListFacts.
Context {A : Type} (P : A → Prop) `{!∀ x, Decision (P x)}.

Lemma length_filter_partition (l : list A) :
  length (filter P l) + length (filter (λ x, ¬ P x) l) = length l.
Proof.
  induction l as [|x l IH]; [done|].
  rewrite !filter_cons. destruct (decide (P x)) as [HP|HP].
  - rewrite decide_False by tauto. simpl. lia.
  - rewrite decide_True by tauto. simpl. lia.
Qed.
End ListFacts.

Lemma length_filter_map_to_list `{Countable K} {A} (P : K * A → Prop)
    `{!∀ x, Decision (P x)} (m : gmap K A) :
  length (filter P (map_to_list m)) = size (filter P m).
Proof.
  rewrite map_filter_alt, map_size_list_to_map; [done|].
  apply NoDup_fmap_fst.
  - intros k x y Hx Hy.
    apply list_elem_of_filter in Hx as [_ Hx], Hy as [_ Hy].
    apply elem_of_map_to_list in Hx, Hy. congruence.
  - apply NoDup_filter, NoDup_map_to_list.
Qed.

(** ** Breadth-first search *)

Section Bfs.
Context {A B : Type} (g : nxgraph A B).

Lemma elem_of_bfs_step (S : gset string) (u : string) :
  u ∈ bfs_step g S ↔ u ∈ S ∨ ∃ w, w ∈ S ∧ adjacent g w u.
Proof.
  unfold bfs_step, adjacent.
  rewrite elem_of_union, elem_of_list_to_set, list_elem_of_In, in_flat_map.
  split; (intros [Hu|Hu]; [by left|right]).
  - destruct Hu as ([a b] & Hin%list_elem_of_In & Hu%list_elem_of_In).
    apply elem_of_elements, elem_of_dom in Hin. simpl in Hu.
    apply elem_of_app in Hu as [Hu|Hu]; case_decide; try by apply elem_of_nil in Hu.
    + apply list_elem_of_singleton in Hu as ->. exists a. auto.
    + apply list_elem_of_singleton in Hu as ->. exists b. auto.
  - destruct Hu as (w & Hw & [Hwu|Huw]).
    + exists (w, u). split.
      * by apply list_elem_of_In, elem_of_elements, elem_of_dom.
      * apply list_elem_of_In. simpl. rewrite decide_True by done.
        apply elem_of_app. left. by left.
    + exists (u, w). split.
      * by apply list_elem_of_In, elem_of_elements, elem_of_dom.
      * apply list_elem_of_In. simpl. rewrite (decide_True _ _ Hw).
        apply elem_of_app. right. by left.
Qed.

Lemma bfs_step_subseteq (S : gset string) : S ⊆ bfs_step g S.
Proof. intros u Hu. apply elem_of_bfs_step. by left. Qed.

Lemma bfs_iter_S (k : nat) (S : gset string) :
  Nat.iter (Datatypes.S k) (bfs_step g) S = bfs_step g (Nat.iter k (bfs_step g) S).
Proof. reflexivity. Qed.

Lemma bfs_iter_fixed (k j : nat) (S : gset string) :
  bfs_step g (Nat.iter j (bfs_step g) S) = Nat.iter j (bfs_step g) S →
  j ≤ k → Nat.iter k (bfs_step g) S = Nat.iter j (bfs_step g) S.
Proof.
  intros Hfix Hle. induction Hle as [|k Hle IH]; [done|].
  by rewrite bfs_iter_S, IH.
Qed.

Lemma bfs_iter_nodes (k : nat) (S : gset string) :
  no_dangling_edges g → S ⊆ dom (nx_nodes g) →
  Nat.iter k (bfs_step g) S ⊆ dom (nx_nodes g).
Proof.
  intros Hwf HS. induction k as [|k IH]; [done|].
  rewrite bfs_iter_S. intros u [Hu|(w & _ & [Hwu|Huw])]%elem_of_bfs_step.
  - by apply IH.
  - apply elem_of_dom. by apply Hwf in Hwu as [_ ?].
  - apply elem_of_dom. by apply Hwf in Huw as [? _].
Qed.

Lemma bfs_iter_grows (k : nat) (v : string) :
  (∃ j, j ≤ k ∧ bfs_step g (Nat.iter j (bfs_step g) {[ v ]})
                = Nat.iter j (bfs_step g) {[ v ]})
  ∨ k + 1 ≤ size (Nat.iter k (bfs_step g) ({[ v ]} : gset string)).
Proof.
  induction k as [|k [(j & Hj & Hfix)|Hsize]].
  - right. change (1 ≤ size ({[ v ]} : gset string)). by rewrite size_singleton.
  - left. exists j. split; [lia|done].
  - destruct (decide (bfs_step g (Nat.iter k (bfs_step g) {[ v ]})
                      = Nat.iter k (bfs_step g) {[ v ]})) as [Hfix|Hmore].
    + left. exists k. split; [lia|done].
    + right. rewrite bfs_iter_S.
      assert (Nat.iter k (bfs_step g) {[ v ]}
              ⊂ bfs_step g (Nat.iter k (bfs_step g) {[ v ]})) as Hsub.
      { split; [apply bfs_step_subseteq|].
        intros Hback. apply Hmore. apply set_eq. intros u. split; [apply Hback|].
        apply bfs_step_subseteq. }
      apply subset_size in Hsub. lia.
Qed.

Lemma plain_bfs_closed (v : string) :
  no_dangling_edges g → v ∈ dom (nx_nodes g) →
  bfs_step g (plain_bfs g v) = plain_bfs g v.
Proof.
  intros Hwf Hv. unfold plain_bfs.
  destruct (bfs_iter_grows (number_of_nodes g) v) as [(j & Hj & Hfix)|Hsize].
  - by rewrite (bfs_iter_fixed _ j) by done.
  - exfalso.
    assert (Nat.iter (number_of_nodes g) (bfs_step g) {[ v ]} ⊆ dom (nx_nodes g))
      as Hsub.
    { apply bfs_iter_nodes; [done|]. by apply singleton_subseteq_l. }
    apply subseteq_size in Hsub. rewrite size_dom in Hsub.
    unfold number_of_nodes in *. lia.
Qed.

Lemma bfs_iter_reachable (k : nat) (v u : string) :
  u ∈ Nat.iter k (bfs_step g) ({[ v ]} : gset string) → rtc (adjacent g) v u.
Proof.
  revert u. induction k as [|k IH]; intros u.
  - intros Hu. change (u ∈ ({[ v ]} : gset string)) in Hu.
    by apply elem_of_singleton in Hu as ->.
  - rewrite bfs_iter_S. intros [Hu|(w & Hw & Hwu)]%elem_of_bfs_step.
    + by apply IH.
    + eapply rtc_r; [by apply IH|done].
Qed.

(** [plain_bfs] finds exactly the nodes joined to [v] by a path. *)
Lemma elem_of_plain_bfs (v u : string) :
  no_dangling_edges g → v ∈ dom (nx_nodes g) →
  u ∈ plain_bfs g v ↔ rtc (adjacent g) v u.
Proof.
  intros Hwf Hv. split; [apply bfs_iter_reachable|].
  revert u. apply rtc_ind_r; [|intros w u Hvw Hwu IH].
  - unfold plain_bfs. generalize (number_of_nodes g). intros k.
    induction k as [|k IH]; [by apply elem_of_singleton_2|].
    rewrite bfs_iter_S. by apply bfs_step_subseteq.
  - rewrite <- plain_bfs_closed by done. apply elem_of_bfs_step. right.
    exists w. split; [exact IH|done].
Qed.
End Bfs.

(** ** Summary statistics *)

(** C10: the steiner nodes are those whose type label is "steiner", the
    prize nodes all the others, so the two counts add up to the node count;
    and there are no more singletons than connected components. *)
Theorem summary_counts_partition {B} (g : nxgraph node_attrs B) (t : string) :
  let row := get_summary_statistics_from_nxgraph g t in
  n_steiner row =
    size (filter (λ kv : string * node_attrs, type kv.2 = "steiner") (nx_nodes g)) ∧
  n_prizes row =
    size (filter (λ kv : string * node_attrs, type kv.2 ≠ "steiner") (nx_nodes g)) ∧
  n_all row = number_of_nodes g ∧
  n_steiner row + n_prizes row = n_all row ∧
  n_components row = number_connected_components g ∧
  n_singletons row ≤ n_components row.
Proof.
  simpl. unfold number_of_nodes.
  rewrite !length_filter_map_to_list, length_map_to_list.
  repeat split.
  - rewrite <- !length_filter_map_to_list.
    rewrite <- (length_map_to_list (nx_nodes g)).
    apply (length_filter_partition (λ row : string * node_attrs, type row.2 = "steiner")).
  - apply length_filter.
Qed.

Lemma existsb_is_neginf (s : list logdeg) :
  existsb is_neginf s = true ↔ LnNegInf ∈ s.
Proof.
  rewrite existsb_exists. split.
  - intros ([] & Hin & Hx); try discriminate. by apply list_elem_of_In.
  - intros Hin. exists LnNegInf. split; [by apply list_elem_of_In|done].
Qed.

Lemma finite_logs_nil (s : list logdeg) :
  finite_logs s = [] ↔ ∀ x, x ∈ s → x = LnNegInf ∨ x = LnNaN.
Proof.
  induction s as [|x s IH]; simpl.
  - split; [|done]. intros _ x Hx. by apply elem_of_nil in Hx.
  - destruct x; (split; [intros Hs|intros Hall]).
    + discriminate.
    + destruct (Hall (Ln p)) as [?|?]; [left|..]; discriminate.
    + intros y [->|Hy]%elem_of_cons; [by left|]. by apply IH.
    + apply IH. intros y Hy. apply Hall. by right.
    + intros y [->|Hy]%elem_of_cons; [by right|]. by apply IH.
    + apply IH. intros y Hy. apply Hall. by right.
Qed.

Lemma series_mean_neginf (s : list logdeg) :
  series_mean s = MeanNegInf ↔ LnNegInf ∈ s.
Proof.
  unfold series_mean. rewrite <- existsb_is_neginf.
  destruct (existsb is_neginf s); [done|].
  destruct (finite_logs s); split; discriminate.
Qed.

Lemma series_mean_nan (s : list logdeg) :
  series_mean s = MeanNaN ↔ ∀ x, x ∈ s → x = LnNaN.
Proof.
  unfold series_mean.
  destruct (existsb is_neginf s) eqn:He.
  - apply existsb_is_neginf in He. split; [discriminate|].
    intros Hall. by apply Hall in He.
  - assert (LnNegInf ∉ s) as Hno.
    { intros Hin%existsb_is_neginf. congruence. }
    destruct (finite_logs s) eqn:Hf.
    + split; [intros _|done]. intros x Hx.
      destruct (proj1 (finite_logs_nil s) Hf x Hx) as [->| ->]; [done|done].
    + split; [discriminate|]. intros Hall.
      assert (finite_logs s = []) as Hnil; [|congruence].
      apply finite_logs_nil. intros x Hx. right. by apply Hall.
Qed.

Lemma elem_of_finite_logs (s : list logdeg) (p : positive) :
  p ∈ finite_logs s ↔ Ln p ∈ s.
Proof.
  induction s as [|x s IH]; simpl.
  - split; intros Hp; by apply elem_of_nil in Hp.
  - destruct x as [q| |]; rewrite ?elem_of_cons, IH.
    + split; (intros [Hp|Hp]; [left; congruence|by right]).
    + split; [by right|]. by intros [?|?].
    + split; [by right|]. by intros [?|?].
Qed.

Lemma series_mean_number (s : list logdeg) :
  is_number (series_mean s) ↔ (∃ p, Ln p ∈ s) ∧ LnNegInf ∉ s.
Proof.
  unfold series_mean. destruct (existsb is_neginf s) eqn:He.
  - apply existsb_is_neginf in He. simpl. tauto.
  - assert (LnNegInf ∉ s) as Hno.
    { intros Hin%existsb_is_neginf. congruence. }
    destruct (finite_logs s) as [|p ps] eqn:Hf; simpl.
    + split; [done|]. intros [[p Hp%elem_of_finite_logs] _].
      rewrite Hf in Hp. by apply elem_of_nil in Hp.
    + split; [|done]. intros _. split; [|done].
      exists p. apply elem_of_finite_logs. rewrite Hf. by left.
Qed.

Lemma filter_all {A} (l : list A) : filter (λ _ : A, True) l = l.
Proof. induction l as [|x l IH]; [done|]. rewrite filter_cons. simpl. by rewrite IH. Qed.

Lemma log_degree_mean_of_category {B} (g : nxgraph node_attrs B)
    (P : node_attrs → Prop) `{!∀ row : string * node_attrs, Decision (P row.2)} :
  mean_log_degree_of g P
    (log_degree_mean (filter (λ row : string * node_attrs, P row.2)
                             (map_to_list (nx_nodes g)))).
Proof.
  unfold mean_log_degree_of, log_degree_mean.
  rewrite series_mean_neginf, series_mean_nan, series_mean_number.
  assert (∀ x, x ∈ map (λ row : string * node_attrs, np_log (degree row.2))
                   (filter (λ row : string * node_attrs, P row.2)
                           (map_to_list (nx_nodes g)))
             ↔ ∃ n a, nx_nodes g !! n = Some a ∧ P a ∧ np_log (degree a) = x)
    as Hin.
  { intros x. change (map ?f ?l) with (f <$> l). rewrite list_elem_of_fmap. split.
    - intros ([n a] & -> & [HP Hna%elem_of_map_to_list]%list_elem_of_filter).
      by exists n, a.
    - intros (n & a & Hna & HP & <-). exists (n, a). split; [done|].
      apply list_elem_of_filter. split; [done|]. by apply elem_of_map_to_list. }
  split; [|split].
  - rewrite Hin. split; intros (n & a & Hna & HP & Hd); exists n, a.
    + by destruct (degree a).
    + by rewrite Hd.
  - split.
    + intros Hall n a Hna HP.
      assert (np_log (degree a) = LnNaN) as Hd.
      { apply Hall, Hin. by exists n, a. }
      by destruct (degree a).
    + intros Hall x (n & a & Hna & HP & <-)%Hin.
      specialize (Hall n a Hna HP). by destruct (degree a).
  - split.
    + intros [[p (n & a & Hna & HP & Hd)%Hin] Hno]. split.
      * exists n, a. by destruct (degree a).
      * intros n' a' Hna' HP' Hd'. apply Hno, Hin. exists n', a'. by rewrite Hd'.
    + intros [(n & a & Hna & HP & Hd) Hno]. split.
      * destruct (degree a) as [|p|] eqn:Hda; try done.
        exists p. apply Hin. exists n, a. by rewrite Hda.
      * intros (n' & a' & Hna' & HP' & Hd')%Hin.
        apply (Hno n' a' Hna' HP'). by destruct (degree a').
Qed.

(** C1 (as amended): for every graph, each mean log-degree of the returned
    record is taken over all the nodes of its category, degree-0 nodes
    included: it is minus infinity exactly when the category has a node of
    degree 0, NaN exactly when it has no node of degree 0 or more (so when
    it is empty), and a number otherwise. *)
Theorem log_degree_means_unguarded {B} (g : nxgraph node_attrs B) (t : string) :
  let row := get_summary_statistics_from_nxgraph g t in
  mean_log_degree_of g (λ _, True) (logDeg_all row)
  ∧ mean_log_degree_of g (λ a, type a = "steiner") (logDeg_steiner row)
  ∧ mean_log_degree_of g (λ a, type a ≠ "steiner") (logDeg_prizes row).
Proof.
  simpl. split; [|split].
  - pose proof (log_degree_mean_of_category g (λ _, True)) as Hall.
    by rewrite filter_all in Hall.
  - apply (log_degree_mean_of_category g (λ a, type a = "steiner")).
  - apply (log_degree_mean_of_category g (λ a, type a ≠ "steiner")).
Qed.

(** C1 fails as stated: on a forest whose only node has degree 0 the record
    holds minus infinity for two means and NaN for the third, and on a
    forest without Steiner nodes, all degrees positive, it holds NaN for the
    Steiner mean. *)
Lemma degree_zero_node_reaches_the_record :
  (let row := get_summary_statistics_from_nxgraph degree_zero_graph "w_6_b_1_g_20" in
   logDeg_all row = MeanNegInf ∧ logDeg_steiner row = MeanNaN
   ∧ logDeg_prizes row = MeanNegInf ∧ ¬ log_means_guarded row)
  ∧ (let row := get_summary_statistics_from_nxgraph two_prizes_graph "w_6_b_1_g_20" in
     logDeg_all row = MeanLn [1%positive; 1%positive]
     ∧ logDeg_steiner row = MeanNaN ∧ ¬ log_means_guarded row).
Proof. vm_compute. repeat split; tauto. Qed.

(** ** The configuration mapping and the loop of [main] *)

Lemma params_repetitions (inv : invocation) :
  let params := params_of (parse_args inv) in
  params !! "noisy_edges_repetitions" = Some (PyInt (default 0%Z (opt_noisy_edges inv)))
  ∧ params !! "random_terminals_repetitions"
    = Some (PyInt (default 0%Z (opt_random_terminals inv))).
Proof.
  destruct inv as [e p o [w|] [b|] [g|] [noise|] [ne|] [rt|] ko [dm|] et [seed|]];
    split; reflexivity.
Qed.

Lemma loop_body_spec (cwd : string) (inv : invocation) (st : run_state) (r : result) :
  loop_body cwd (parse_args inv) (params_of (parse_args inv)) st r
  = Ok {| trace := trace st ++ result_events cwd (opt_output inv) (single_run inv) r;
          summary_stats := summary_stats st ++ summary_rows (single_run inv) [r] |}.
Proof.
  destruct (params_repetitions inv) as [Hn Hr]. simpl in Hn, Hr.
  destruct r as [[tg forest] af].
  unfold loop_body, result_events, summary_rows, getitem. simpl.
  rewrite Hn, Hr. simpl. rewrite filter_cons, filter_nil. simpl.
  destruct (decide (0 < number_of_nodes af)) as [Hpos|Hzero].
  - unfold single_run.
    destruct (default 0%Z (opt_noisy_edges inv) =? default 0%Z (opt_random_terminals inv))%Z
      eqn:He1; simpl.
    + destruct (default 0%Z (opt_random_terminals inv) =? 0)%Z eqn:He2.
      * rewrite bool_decide_eq_true_2 by lia. done.
      * rewrite bool_decide_eq_false_2 by lia. simpl. by rewrite app_nil_r.
    + rewrite bool_decide_eq_false_2 by lia. simpl. by rewrite app_nil_r.
  - destruct (single_run inv); simpl; by rewrite app_nil_r.
Qed.

Lemma summary_rows_app (single : bool) (l1 l2 : list result) :
  summary_rows single (l1 ++ l2) = summary_rows single l1 ++ summary_rows single l2.
Proof.
  unfold summary_rows. destruct single; [|done].
  by rewrite filter_app, fmap_app.
Qed.

Lemma run_loop_spec (cwd : string) (inv : invocation) (results : list result) (st : run_state) :
  run_loop cwd (parse_args inv) (params_of (parse_args inv)) st results
  = Ok {| trace := trace st
            ++ concat (result_events cwd (opt_output inv) (single_run inv) <$> results);
          summary_stats := summary_stats st ++ summary_rows (single_run inv) results |}.
Proof.
  revert st. induction results as [|r results IH]; intros st.
  - simpl. unfold summary_rows. destruct st, (single_run inv); simpl;
      by rewrite !app_nil_r.
  - simpl. rewrite loop_body_spec. simpl. rewrite IH. simpl.
    change (r :: results) with ([r] ++ results).
    by rewrite summary_rows_app, !app_assoc.
Qed.

Lemma main_spec (cwd : string) gs (inv : invocation) :
  let args := parse_args inv in
  let results := gs (opt_edge inv) (opt_prize inv) (params_of args) in
  main cwd gs inv
  = Ok (write_summary args
          {| trace := concat (result_events cwd (opt_output inv) (single_run inv) <$> results);
             summary_stats := summary_rows (single_run inv) results |}).
Proof. unfold main. simpl. by rewrite run_loop_spec. Qed.

(** ** [sort_values] *)

Lemma row_leb_total (x y : summary_row) : row_leb x y = false → row_leb y x = true.
Proof.
  unfold row_leb. intros Hxy.
  apply orb_false_iff in Hxy as [H1 H2].
  apply Nat.ltb_ge in H1. apply andb_false_iff in H2.
  apply orb_true_iff.
  destruct (decide (n_singletons y < n_singletons x)) as [Hlt|Hge].
  - left. by apply Nat.ltb_lt.
  - right. apply andb_true_iff. split; [apply Nat.eqb_eq; lia|].
    destruct H2 as [H2|H2].
    + apply Nat.eqb_neq in H2. lia.
    + apply Nat.leb_gt in H2. apply Nat.leb_le. lia.
Qed.

Lemma insert_row_Permutation (x : summary_row) (l : list summary_row) :
  insert_row x l ≡ₚ x :: l.
Proof.
  induction l as [|y l IH]; simpl; [done|].
  destruct (row_leb x y); [done|]. rewrite IH. apply Permutation_swap.
Qed.

Lemma sort_values_Permutation (rows : list summary_row) : sort_values rows ≡ₚ rows.
Proof.
  induction rows as [|x rows IH]; simpl; [done|].
  by rewrite insert_row_Permutation, IH.
Qed.

Lemma insert_row_Sorted (x : summary_row) (l : list summary_row) :
  Sorted row_le l → Sorted row_le (insert_row x l).
Proof.
  induction 1 as [|y l Hl IH Hhd]; simpl.
  - by repeat constructor.
  - destruct (row_leb x y) eqn:Hxy.
    + constructor; [by constructor|]. by constructor.
    + constructor; [done|].
      destruct Hhd as [|z l Hyz]; simpl.
      * constructor. by apply row_leb_total.
      * destruct (row_leb x z); constructor; [|done]. by apply row_leb_total.
Qed.

Lemma sort_values_Sorted (rows : list summary_row) : Sorted row_le (sort_values rows).
Proof.
  induction rows as [|x rows IH]; simpl; [constructor|]. by apply insert_row_Sorted.
Qed.

Lemma params_not_None (inv : invocation) (k : string) (v : pyval) :
  params_of (parse_args inv) !! k = Some v → v ≠ PyNone.
Proof.
  intros Hk. apply elem_of_list_to_map_2 in Hk.
  apply list_elem_of_filter in Hk as [Hv _]. by destruct v.
Qed.

(** C5: an optional parameter that is absent from the invocation takes its
    default in the configuration mapping ([6], [1] and [20] for w, b and g,
    0.1 for noise, 0 for both repetition counts), seed and dummy mode are
    left out of the mapping when unset, no value of the mapping is None, and
    [main] hands the mapping to the grid search and ends without an
    exception. *)
Theorem absent_options_fall_back_to_defaults (cwd : string)
    (gs : string → string → gmap string pyval → list result) (inv : invocation) :
  let params := params_of (parse_args inv) in
  (opt_w inv = None → params !! "w" = Some (PyList [PyInt 6]))
  ∧ (opt_b inv = None → params !! "b" = Some (PyList [PyInt 1]))
  ∧ (opt_g inv = None → params !! "g" = Some (PyList [PyInt 20]))
  ∧ (opt_noise inv = None → params !! "noise" = Some (PyFloat float_0_1))
  ∧ (opt_noisy_edges inv = None →
       params !! "noisy_edges_repetitions" = Some (PyInt 0))
  ∧ (opt_random_terminals inv = None →
       params !! "random_terminals_repetitions" = Some (PyInt 0))
  ∧ (opt_seed inv = None → params !! "seed" = None)
  ∧ (opt_dummyMode inv = None → params !! "dummy_mode" = None)
  ∧ (∀ k v, params !! k = Some v → v ≠ PyNone)
  ∧ main cwd gs inv
    = Ok (write_summary (parse_args inv)
            {| trace := concat (result_events cwd (opt_output inv) (single_run inv)
                                  <$> gs (opt_edge inv) (opt_prize inv) params);
               summary_stats := summary_rows (single_run inv)
                                  (gs (opt_edge inv) (opt_prize inv) params) |}).
Proof.
  simpl.
  pose proof (params_not_None inv) as Hnone.
  pose proof (main_spec cwd gs inv) as Hmain. simpl in Hmain.
  repeat lazymatch goal with
         | |- (_ = None → _) ∧ _ => split
         end;
    [..|split; [exact Hnone|exact Hmain]]; clear Hnone Hmain;
    destruct inv as [e p o [w|] [b|] [g|] [noise|] [ne|] [rt|] ko [dm|] et [seed|]];
    intros Hopt; cbv in Hopt; try discriminate Hopt; reflexivity.
Qed.

(** The defaults, on an invocation with the three required options only. *)
Lemma absent_options_fall_back_to_defaults_witness :
  let params := params_of (parse_args bare_invocation) in
  params !! "w" = Some (PyList [PyInt 6])
  ∧ params !! "b" = Some (PyList [PyInt 1])
  ∧ params !! "g" = Some (PyList [PyInt 20])
  ∧ params !! "noise" = Some (PyFloat float_0_1)
  ∧ params !! "noisy_edges_repetitions" = Some (PyInt 0)
  ∧ params !! "random_terminals_repetitions" = Some (PyInt 0)
  ∧ params !! "seed" = None
  ∧ params !! "dummy_mode" = None.
Proof.
  destruct (absent_options_fall_back_to_defaults sample_cwd (λ _ _ _, []) bare_invocation)
    as (Hw & Hb & Hg & Hnoise & Hne & Hrt & Hseed & Hdm & _).
  simpl.
  split; [apply Hw; reflexivity|]. split; [apply Hb; reflexivity|].
  split; [apply Hg; reflexivity|]. split; [apply Hnoise; reflexivity|].
  split; [apply Hne; reflexivity|]. split; [apply Hrt; reflexivity|].
  split; [apply Hseed; reflexivity|apply Hdm; reflexivity].
Defined.

(** ** Strings *)

Lemma list_of_append (s t : string) :
  Stdlib.Strings.String.list_ascii_of_string (s +:+ t) = Stdlib.Strings.String.list_ascii_of_string s ++ Stdlib.Strings.String.list_ascii_of_string t.
Proof. induction s as [|c s IH]; simpl; [done|]. by rewrite IH. Qed.

Lemma append_inv_tail (s1 s2 t : string) : s1 +:+ t = s2 +:+ t → s1 = s2.
Proof.
  intros Heq. apply (f_equal Stdlib.Strings.String.list_ascii_of_string) in Heq.
  rewrite !list_of_append in Heq. apply app_inv_tail in Heq.
  apply (f_equal Stdlib.Strings.String.string_of_list_ascii) in Heq.
  by rewrite !Stdlib.Strings.String.string_of_list_ascii_of_string in Heq.
Qed.

(** ** The loop of [main] *)

Lemma result_events_no_summary (cwd : string) (dir : string) (single : bool) (r : result) :
  Forall (λ e, is_summary_table e = false) (result_events cwd dir single r).
Proof.
  unfold result_events.
  destruct (decide (0 < number_of_nodes r.2)); [destruct single|];
    simpl; repeat constructor.
Qed.

Lemma loop_events_no_summary (cwd : string) (dir : string) (single : bool) (results : list result) :
  Forall (λ e, is_summary_table e = false)
         (concat (result_events cwd dir single <$> results)).
Proof.
  induction results as [|r results IH]; simpl; [constructor|].
  apply Forall_app. split; [apply result_events_no_summary|done].
Qed.

(** C2 (as amended): [main] always ends normally; in a single test run (both
    repetition counts 0) one Summary Row is computed for each result whose
    augmented forest is not empty, in the order of the results, and if there
    is at least one row the table, sorted by [n_singletons] and then
    [n_all], is written once, as the last action of the run; when a
    repetition count is not 0 there is no row and no table is written. *)
Theorem summary_table_of_single_runs (cwd : string)
    (gs : string → string → gmap string pyval → list result) (inv : invocation) :
  let results := gs (opt_edge inv) (opt_prize inv) (params_of (parse_args inv)) in
  let rows := summary_rows (single_run inv) results in
  ∃ events,
    main cwd gs inv
    = Ok (events ++
          match rows with
          | [] => []
          | _ :: _ => [WriteFile (opt_output inv +:+ "/summary_stats.tsv")
                         (SummaryTable (sort_values rows))]
          end)
    ∧ Forall (λ e, is_summary_table e = false) events
    ∧ rows = (if single_run inv
              then (λ r : result, get_summary_statistics_from_nxgraph r.1.2 r.1.1)
                     <$> filter (λ r : result, 0 < number_of_nodes r.2) results
              else [])
    ∧ sort_values rows ≡ₚ rows
    ∧ Sorted row_le (sort_values rows).
Proof.
  intros results rows.
  exists (concat (result_events cwd (opt_output inv) (single_run inv) <$> results)).
  split; [|split; [|split; [|split]]].
  - rewrite main_spec. fold results rows. unfold write_summary. simpl.
    destruct rows; [by rewrite app_nil_r|done].
  - apply loop_events_no_summary.
  - done.
  - apply sort_values_Permutation.
  - apply sort_values_Sorted.
Qed.

(** C2 fails as stated: with [--noisy_edges 3] a non-empty result gets no
    Summary Row and no table is written. *)
Lemma no_summary_row_under_randomization :
  ∃ out, main sample_cwd one_cell noisy_invocation = Ok out
    ∧ Forall (λ e, is_summary_table e = false) out
    ∧ ¬ summary_row_per_result (one_cell "edges.tsv" "prizes.tsv" ∅) out.
Proof.
  eexists. split; [apply main_spec|]. split.
  - vm_compute. repeat constructor.
  - intros (path & rows & Hlast & _). vm_compute in Hlast. discriminate Hlast.
Qed.

(** C3: a result whose augmented forest has no node does not end the run:
    the only output for it is the printed line that names its tag (distinct
    tags give distinct lines), and the output for all the other results is
    what it would be without it. *)
Theorem empty_result_is_reported_and_skipped (cwd : string)
    (gs : string → string → gmap string pyval → list result) (inv : invocation)
    (results1 results2 : list result) (tg : string) (forest : forest_graph)
    (af : frequency_graph) :
  number_of_nodes af = 0 →
  gs (opt_edge inv) (opt_prize inv) (params_of (parse_args inv))
    = results1 ++ (tg, forest, af) :: results2 →
  ∃ post,
    main cwd gs inv
    = Ok (concat (result_events cwd (opt_output inv) (single_run inv) <$> results1)
          ++ Print (tg +:+ " is empty, results not printed.") :: post)
    ∧ main cwd (λ _ _ _, results1 ++ results2) inv
      = Ok (concat (result_events cwd (opt_output inv) (single_run inv) <$> results1)
            ++ post)
    ∧ ∀ tg', tg' +:+ " is empty, results not printed."
             = tg +:+ " is empty, results not printed." → tg' = tg.
Proof.
  intros Hempty Hgs.
  set (single := single_run inv). set (dir := opt_output inv).
  assert (summary_rows single (results1 ++ (tg, forest, af) :: results2)
          = summary_rows single (results1 ++ results2)) as Hrows.
  { change ((tg, forest, af) :: results2) with ([(tg, forest, af)] ++ results2).
    rewrite !summary_rows_app. f_equal.
    unfold summary_rows. destruct single; [|done].
    rewrite filter_cons. simpl. rewrite decide_False by lia. done. }
  assert (result_events cwd dir single (tg, forest, af)
          = [Print (tg +:+ " is empty, results not printed.")]) as Hev.
  { unfold result_events. simpl. by rewrite decide_False by lia. }
  exists (write_summary (parse_args inv)
            {| trace := concat (result_events cwd dir single <$> results2);
               summary_stats := summary_rows single (results1 ++ results2) |}).
  split; [|split].
  - rewrite main_spec. simpl. rewrite Hgs. fold single dir. rewrite Hrows.
    rewrite fmap_app, concat_app, fmap_cons. simpl. rewrite Hev.
    unfold write_summary. simpl.
    destruct (summary_rows single (results1 ++ results2)); simpl;
      by rewrite <- ?app_assoc.
  - rewrite main_spec. simpl. fold single dir.
    rewrite fmap_app, concat_app.
    unfold write_summary. simpl.
    destruct (summary_rows single (results1 ++ results2)); simpl;
      by rewrite <- ?app_assoc.
  - intros tg'. apply append_inv_tail.
Qed.

(** A run of three results, the second of them empty. *)
Lemma empty_result_is_reported_and_skipped_witness :
  number_of_nodes empty_augmented_forest = 0
  ∧ ∃ post,
      main sample_cwd three_cells bare_invocation
      = Ok (concat (result_events sample_cwd "/out" true
                      <$> [("w_6_b_1_g_20", path_graph,
                            merge_to_augmented_forest [path_graph])])
            ++ Print "w_6_b_2_g_20 is empty, results not printed." :: post).
Proof.
  split; [reflexivity|].
  destruct (empty_result_is_reported_and_skipped sample_cwd three_cells bare_invocation
              [("w_6_b_1_g_20", path_graph, merge_to_augmented_forest [path_graph])]
              [("w_6_b_3_g_20", path_graph, merge_to_augmented_forest [path_graph])]
              "w_6_b_2_g_20" empty_forest empty_augmented_forest)
    as (post & Hmain & _); [reflexivity|reflexivity|].
  exists post. exact Hmain.
Defined.

(** ** The robust network *)

#[global] Instance higher_frequency_total : Total higher_frequency.
Proof. intros x y. unfold higher_frequency. destruct (total Qcle x.2 y.2); auto. Qed.

#[global] Instance higher_frequency_trans : Transitive higher_frequency.
Proof. intros x y z. unfold higher_frequency. intros ??. by etrans. Qed.

Lemma top_nodes_NoDup (g : frequency_graph) (max_size : nat) :
  NoDup (top_nodes g max_size).*1.
Proof.
  unfold top_nodes.
  apply (sublist_NoDup _ (merge_sort higher_frequency (map_to_list (nx_nodes g))).*1).
  - rewrite merge_sort_Permutation. apply NoDup_fst_map_to_list.
  - apply fmap_sublist, sublist_take.
Qed.

Lemma elem_of_top_nodes (g : frequency_graph) (max_size : nat) (n : string) (f : Qc) :
  (n, f) ∈ top_nodes g max_size → nx_nodes g !! n = Some f.
Proof.
  intros Hin. apply subseteq_take in Hin.
  rewrite merge_sort_Permutation in Hin. by apply elem_of_map_to_list.
Qed.

(** C4: for every augmented forest and every maximum size, the robust
    network is a subgraph of the augmented forest, none of its edges
    dangles, it has at most [max_size] nodes (all the nodes of the augmented
    forest if they fit), no node left out has a higher frequency than a node
    kept, and with the maximum of 400 that [main] passes it has at most 400
    nodes. *)
Theorem robust_network_is_capped_subgraph (af : frequency_graph) (max_size : nat) :
  let robust_network := get_networkx_subgraph_from_randomizations af max_size in
  is_subgraph robust_network af
  ∧ no_dangling_edges robust_network
  ∧ number_of_nodes robust_network ≤ max_size
  ∧ number_of_nodes robust_network = min max_size (number_of_nodes af)
  ∧ (∀ n f n' f', nx_nodes robust_network !! n = Some f →
       nx_nodes af !! n' = Some f' → nx_nodes robust_network !! n' = None →
       (f' ≤ f)%Qc)
  ∧ number_of_nodes (get_networkx_subgraph_from_randomizations af 400) ≤ 400.
Proof.
  assert (∀ k, number_of_nodes (get_networkx_subgraph_from_randomizations af k)
               = min k (number_of_nodes af)) as Hsize.
  { intros k. unfold number_of_nodes. simpl.
    rewrite map_size_list_to_map by apply top_nodes_NoDup.
    unfold top_nodes.
    by rewrite length_take, merge_sort_Permutation, length_map_to_list. }
  simpl. split; [|split; [|split; [|split; [|split]]]].
  - split; simpl.
    + apply map_subseteq_spec. intros n f Hn.
      apply elem_of_list_to_map_2 in Hn. by eapply elem_of_top_nodes.
    + apply map_filter_subseteq.
  - intros u v [f Huv]. simpl in Huv.
    by apply map_lookup_filter_Some in Huv as [_ [Hu Hv]].
  - rewrite Hsize. lia.
  - apply Hsize.
  - intros n f n' f' Hn Hn' Hout. simpl in Hn, Hout.
    apply elem_of_list_to_map_2 in Hn.
    apply not_elem_of_list_to_map_2 in Hout.
    pose proof (StronglySorted_merge_sort higher_frequency
                  (map_to_list (nx_nodes af))) as Hsorted.
    rewrite <- (take_drop max_size) in Hsorted.
    assert ((n', f') ∈ drop max_size
              (merge_sort higher_frequency (map_to_list (nx_nodes af)))) as Hdrop.
    { assert ((n', f') ∈ merge_sort higher_frequency (map_to_list (nx_nodes af)))
        as Hall.
      { rewrite merge_sort_Permutation. by apply elem_of_map_to_list. }
      rewrite <- (take_drop max_size) in Hall.
      apply elem_of_app in Hall as [Htake|Hdrop]; [|done].
      destruct Hout. apply list_elem_of_fmap. by exists (n', f'). }
    apply (StronglySorted_app_1_elem_of _ _ _ (n, f) (n', f') Hsorted Hn Hdrop).
  - rewrite Hsize. lia.
Qed.

(** ** Frequencies *)

Lemma Qc_of_nat_pos (t : nat) : 0 < t → (0 < Qc_of_Z (Z.of_nat t))%Qc.
Proof. intros Ht. rewrite <- Z2Qc_inj_0. apply (proj1 (Z2Qc_inj_lt _ _)). lia. Qed.

Lemma frequency_mul (c t : nat) :
  0 < t → (frequency c t * Qc_of_Z (Z.of_nat t))%Qc = Qc_of_Z (Z.of_nat c).
Proof.
  intros Ht. unfold frequency. apply test_field.
  intros Hz. pose proof (Qc_of_nat_pos t Ht) as Hpos.
  rewrite Hz in Hpos. by apply (irreflexivity Qclt) in Hpos.
Qed.

Lemma frequency_zero_total (c : nat) : frequency c 0 = 0%Qc.
Proof. unfold frequency. simpl. apply Qcmult_0_r. Qed.

Lemma frequency_mono (c c' t : nat) :
  c ≤ c' → (frequency c t ≤ frequency c' t)%Qc.
Proof.
  intros Hle. destruct (decide (t = 0)) as [->|Hne].
  - by rewrite !frequency_zero_total.
  - apply (Qcmult_le_mono_pos_r _ _ (Qc_of_Z (Z.of_nat t))).
    + apply Qc_of_nat_pos. lia.
    + rewrite !frequency_mul by lia. apply (proj1 (Z2Qc_inj_le _ _)). lia.
Qed.

Lemma frequency_pos (c t : nat) : 0 < c → 0 < t → (0 < frequency c t)%Qc.
Proof.
  intros Hc Ht.
  apply (Qcmult_lt_mono_pos_r _ _ (Qc_of_Z (Z.of_nat t))); [by apply Qc_of_nat_pos|].
  rewrite frequency_mul, Qcmult_0_l by done. by apply Qc_of_nat_pos.
Qed.

Lemma frequency_le_1 (c t : nat) : c ≤ t → (frequency c t ≤ 1)%Qc.
Proof.
  intros Hle. destruct (decide (t = 0)) as [->|Hne].
  - rewrite frequency_zero_total. done.
  - apply (Qcmult_le_mono_pos_r _ _ (Qc_of_Z (Z.of_nat t))).
    + apply Qc_of_nat_pos. lia.
    + rewrite frequency_mul, Qcmult_1_l by lia. apply (proj1 (Z2Qc_inj_le _ _)). lia.
Qed.

Lemma frequency_eq_1 (c t : nat) : 0 < t → frequency c t = 1%Qc ↔ c = t.
Proof.
  intros Ht. split.
  - intros H1. pose proof (frequency_mul c t Ht) as Hmul.
    rewrite H1, Qcmult_1_l in Hmul. apply Z2Qc_inj in Hmul. lia.
  - intros ->. unfold frequency. apply Qcmult_inv_r.
    intros Hz. pose proof (Qc_of_nat_pos t Ht) as Hpos.
    rewrite Hz in Hpos. by apply (irreflexivity Qclt) in Hpos.
Qed.

Section CountFacts.
Context `{Countable K}.

Lemma count_merge_comm (a b : gmap K nat) : count_merge a b = count_merge b a.
Proof.
  apply map_eq. intros k. unfold count_merge. rewrite !lookup_union_with.
  destruct (a !! k), (b !! k); simpl; try done. f_equal. lia.
Qed.

Lemma count_merge_assoc (a b c : gmap K nat) :
  count_merge a (count_merge b c) = count_merge (count_merge a b) c.
Proof.
  apply map_eq. intros k. unfold count_merge. rewrite !lookup_union_with.
  destruct (a !! k), (b !! k), (c !! k); simpl; try done. f_equal. lia.
Qed.

Lemma count_merge_empty_r (a : gmap K nat) : count_merge a ∅ = a.
Proof.
  apply map_eq. intros k. unfold count_merge.
  rewrite lookup_union_with, lookup_empty. by destruct (a !! k).
Qed.

Lemma occurrence_counts_app {V} (ms1 ms2 : list (gmap K V)) :
  occurrence_counts (ms1 ++ ms2)
  = count_merge (occurrence_counts ms1) (occurrence_counts ms2).
Proof.
  induction ms1 as [|m ms1 IH]; simpl.
  - by rewrite count_merge_comm, count_merge_empty_r.
  - by rewrite IH, count_merge_assoc.
Qed.

Lemma occurrences_cons {V} (k : K) (m : gmap K V) (ms : list (gmap K V)) :
  occurrences k (m :: ms)
  = (if decide (is_Some (m !! k)) then 1 else 0) + occurrences k ms.
Proof. unfold occurrences. rewrite filter_cons. by destruct (decide _). Qed.

Lemma occurrences_le_length {V} (k : K) (ms : list (gmap K V)) :
  occurrences k ms ≤ length ms.
Proof. apply length_filter. Qed.

Lemma occurrences_all {V} (k : K) (ms : list (gmap K V)) :
  occurrences k ms = length ms ↔ ∀ m, m ∈ ms → is_Some (m !! k).
Proof.
  induction ms as [|m ms IH].
  - split; [|done]. intros _ m Hm. by apply elem_of_nil in Hm.
  - rewrite occurrences_cons. simpl.
    pose proof (occurrences_le_length k ms) as Hle.
    destruct (decide (is_Some (m !! k))) as [Hk|Hk]; split.
    + intros Heq m' [->|Hm']%elem_of_cons; [done|]. apply IH; [lia|done].
    + intros Hall. f_equal. apply IH. intros m' Hm'. apply Hall. by right.
    + lia.
    + intros Hall. destruct Hk. apply Hall. by left.
Qed.

Lemma occurrences_Permutation {V} (k : K) (ms ms' : list (gmap K V)) :
  ms ≡ₚ ms' → occurrences k ms = occurrences k ms'.
Proof. intros Hp. unfold occurrences. by rewrite Hp. Qed.

Lemma lookup_occurrence_counts {V} (ms : list (gmap K V)) (k : K) :
  occurrence_counts ms !! k
  = if decide (occurrences k ms = 0) then None else Some (occurrences k ms).
Proof.
  induction ms as [|m ms IH].
  - simpl. by rewrite lookup_empty.
  - simpl. unfold count_merge, count_of.
    rewrite lookup_union_with, lookup_fmap, IH, occurrences_cons.
    destruct (decide (is_Some (m !! k))) as [[v ->]|Hk]; simpl.
    + by destruct (decide (occurrences k ms = 0)) as [->|?].
    + apply eq_None_not_Some in Hk. rewrite Hk. simpl.
      by destruct (decide (occurrences k ms = 0)).
Qed.

Lemma lookup_frequencies {V} (ms : list (gmap K V)) (k : K) :
  frequencies ms !! k
  = if decide (occurrences k ms = 0) then None
    else Some (frequency (occurrences k ms) (length ms)).
Proof.
  unfold frequencies. rewrite lookup_fmap, lookup_occurrence_counts.
  by destruct (decide _).
Qed.

Lemma frequencies_Permutation {V} (ms ms' : list (gmap K V)) :
  ms ≡ₚ ms' → frequencies ms = frequencies ms'.
Proof.
  intros Hp. apply map_eq. intros k. rewrite !lookup_frequencies.
  by rewrite (occurrences_Permutation k ms ms' Hp), (Permutation_length Hp).
Qed.

Lemma frequencies_range {V} (ms : list (gmap K V)) (k : K) (f : Qc) :
  frequencies ms !! k = Some f →
  (0 < f)%Qc ∧ (f ≤ 1)%Qc ∧ (f = 1%Qc ↔ ∀ m, m ∈ ms → is_Some (m !! k)).
Proof.
  rewrite lookup_frequencies.
  pose proof (occurrences_le_length k ms) as Hle.
  destruct (decide (occurrences k ms = 0)) as [|Hocc]; [done|].
  intros [= <-]. split; [|split].
  - apply frequency_pos; lia.
  - by apply frequency_le_1.
  - rewrite frequency_eq_1 by lia. apply occurrences_all.
Qed.

Lemma frequencies_mono {V} (ms ms' : list (gmap K V)) (k : K) :
  length ms' = length ms → occurrences k ms ≤ occurrences k ms' →
  (default 0%Qc (frequencies ms !! k) ≤ default 0%Qc (frequencies ms' !! k))%Qc.
Proof.
  intros Hlen Hocc. rewrite !lookup_frequencies, Hlen.
  destruct (decide (occurrences k ms = 0)) as [Hz|Hnz]; simpl.
  - destruct (decide (occurrences k ms' = 0)); simpl; [done|].
    pose proof (occurrences_le_length k ms') as Hle.
    apply Qclt_le_weak, frequency_pos; lia.
  - rewrite decide_False by lia. simpl. by apply frequency_mono.
Qed.
End CountFacts.

(** ** Merging forests *)

(** C7: merging a list of forests and merging any permutation of it give
    the same augmented forest; an element that occurs in no forest is
    absent, any other has frequency (number of forests that contain it) /
    (number of forests); the merge of two accumulators is commutative and
    associative, and the accumulator of a concatenation is the merge of the
    accumulators. *)
Theorem merge_is_order_independent {A B} (fs fs' : list (nxgraph A B)) :
  fs ≡ₚ fs' →
  merge_to_augmented_forest fs = merge_to_augmented_forest fs'
  ∧ (∀ n, nx_nodes (merge_to_augmented_forest fs) !! n
          = if decide (occurrences n (nx_nodes <$> fs) = 0) then None
            else Some (frequency (occurrences n (nx_nodes <$> fs)) (length fs)))
  ∧ (∀ e, nx_edges (merge_to_augmented_forest fs) !! e
          = if decide (occurrences e (nx_edges <$> fs) = 0) then None
            else Some (frequency (occurrences e (nx_edges <$> fs)) (length fs)))
  ∧ (∀ a b : gmap string nat, count_merge a b = count_merge b a)
  ∧ (∀ a b c : gmap string nat,
       count_merge a (count_merge b c) = count_merge (count_merge a b) c)
  ∧ (∀ fs1 fs2 : list (nxgraph A B),
       occurrence_counts (nx_nodes <$> (fs1 ++ fs2))
       = count_merge (occurrence_counts (nx_nodes <$> fs1))
                     (occurrence_counts (nx_nodes <$> fs2))).
Proof.
  intros Hp. split; [|split; [|split; [|split; [|split]]]].
  - unfold merge_to_augmented_forest. f_equal; apply frequencies_Permutation;
      by apply fmap_Permutation.
  - intros n. simpl. by rewrite lookup_frequencies, length_fmap.
  - intros e. simpl. by rewrite lookup_frequencies, length_fmap.
  - apply count_merge_comm.
  - apply count_merge_assoc.
  - intros fs1 fs2. rewrite fmap_app. apply occurrence_counts_app.
Qed.

(** Merging [A; B; C] and [C; A; B]. *)
Lemma merge_is_order_independent_witness :
  merge_to_augmented_forest [forest_ab; forest_bc; forest_abc]
  = merge_to_augmented_forest [forest_abc; forest_ab; forest_bc]
  ∧ nx_nodes (merge_to_augmented_forest [forest_ab; forest_bc; forest_abc]) !! "A"
    = Some (frequency 2 3).
Proof.
  destruct (merge_is_order_independent [forest_ab; forest_bc; forest_abc]
              [forest_abc; forest_ab; forest_bc]) as (Heq & Hnodes & _).
  - symmetry. apply (Permutation_cons_append [forest_ab; forest_bc] forest_abc).
  - split; [exact Heq|]. rewrite Hnodes. reflexivity.
Defined.

(** C8: in a merged augmented forest every node and edge frequency is above
    0 and at most 1, it is 1 exactly for the elements that are in every
    forest, and a frequency does not decrease when the element is in more of
    the same number of forests. *)
Theorem frequencies_are_fractions {A B} (fs : list (nxgraph A B)) :
  let af := merge_to_augmented_forest fs in
  (∀ n f, nx_nodes af !! n = Some f →
     (0 < f)%Qc ∧ (f ≤ 1)%Qc
     ∧ (f = 1%Qc ↔ ∀ g, g ∈ fs → is_Some (nx_nodes g !! n)))
  ∧ (∀ e f, nx_edges af !! e = Some f →
       (0 < f)%Qc ∧ (f ≤ 1)%Qc
       ∧ (f = 1%Qc ↔ ∀ g, g ∈ fs → is_Some (nx_edges g !! e)))
  ∧ (∀ c c' total, c ≤ c' → (frequency c total ≤ frequency c' total)%Qc)
  ∧ (∀ (fs' : list (nxgraph A B)) n, length fs' = length fs →
       occurrences n (nx_nodes <$> fs) ≤ occurrences n (nx_nodes <$> fs') →
       (node_frequency af n ≤ node_frequency (merge_to_augmented_forest fs') n)%Qc)
  ∧ (∀ (fs' : list (nxgraph A B)) e, length fs' = length fs →
       occurrences e (nx_edges <$> fs) ≤ occurrences e (nx_edges <$> fs') →
       (edge_frequency af e ≤ edge_frequency (merge_to_augmented_forest fs') e)%Qc).
Proof.
  simpl. split; [|split; [|split; [|split]]].
  - intros n f Hf. apply frequencies_range in Hf as (Hpos & Hle & H1).
    split; [done|]. split; [done|]. rewrite H1. split.
    + intros Hall g Hg. apply Hall, list_elem_of_fmap. by exists g.
    + intros Hall m (g & -> & Hg)%list_elem_of_fmap. by apply Hall.
  - intros e f Hf. apply frequencies_range in Hf as (Hpos & Hle & H1).
    split; [done|]. split; [done|]. rewrite H1. split.
    + intros Hall g Hg. apply Hall, list_elem_of_fmap. by exists g.
    + intros Hall m (g & -> & Hg)%list_elem_of_fmap. by apply Hall.
  - apply frequency_mono.
  - intros fs' n Hlen Hocc. unfold node_frequency. simpl.
    apply frequencies_mono; [by rewrite !length_fmap|done].
  - intros fs' e Hlen Hocc. unfold edge_frequency. simpl.
    apply frequencies_mono; [by rewrite !length_fmap|done].
Qed.

(** The node A is in two of three forests. *)
Lemma frequencies_are_fractions_witness :
  let af := merge_to_augmented_forest [forest_ab; forest_bc; forest_abc] in
  nx_nodes af !! "A" = Some (frequency 2 3)
  ∧ (0 < frequency 2 3)%Qc ∧ (frequency 2 3 ≤ 1)%Qc
  ∧ (frequency 2 3 ≤ frequency 3 3)%Qc
  ∧ (node_frequency af "A"
     ≤ node_frequency (merge_to_augmented_forest [forest_abc; forest_ab; forest_abc]) "A")%Qc.
Proof.
  destruct (frequencies_are_fractions [forest_ab; forest_bc; forest_abc])
    as (Hnodes & _ & Hmono & Hmore & _).
  assert (nx_nodes (merge_to_augmented_forest [forest_ab; forest_bc; forest_abc]) !! "A"
          = Some (frequency 2 3)) as HA by reflexivity.
  destruct (Hnodes "A" (frequency 2 3) HA) as (Hpos & Hle & _).
  split; [exact HA|]. split; [exact Hpos|]. split; [exact Hle|].
  split; [apply Hmono; lia|].
  apply Hmore; [reflexivity|vm_compute; lia].
Defined.

(** ** Run tags *)

Lemma append_cons (c : ascii) (s t : string) : String c s +:+ t = String c (s +:+ t).
Proof. reflexivity. Qed.

Lemma append_nil (t : string) : "" +:+ t = t.
Proof. reflexivity. Qed.

Lemma append_assoc (s1 s2 s3 : string) : (s1 +:+ s2) +:+ s3 = s1 +:+ (s2 +:+ s3).
Proof. induction s1 as [|c s1 IH]; [done|]. rewrite !append_cons. by f_equal. Qed.

(** Two strings cut at the first occurrence of [c] agree part by part. *)
Lemma char_split (c : ascii) (s1 s2 t1 t2 : string) :
  has_char c s1 = false → has_char c s2 = false →
  s1 +:+ String c t1 = s2 +:+ String c t2 → s1 = s2 ∧ t1 = t2.
Proof.
  revert s2. induction s1 as [|c1 s1 IH]; intros [|c2 s2];
    rewrite ?append_cons, ?append_nil; simpl.
  - intros _ _ [= ->]. done.
  - intros _ Hs2 [= <- _]. by rewrite Ascii.eqb_refl in Hs2.
  - intros Hs1 _ [= -> _]. by rewrite Ascii.eqb_refl in Hs1.
  - intros [_ Hs1]%orb_false_iff [_ Hs2]%orb_false_iff [= -> Heq].
    destruct (IH s2 Hs1 Hs2 Heq) as [-> ->]. done.
Qed.

Lemma has_char_app (c : ascii) (s t : string) :
  has_char c (s +:+ t) = has_char c s || has_char c t.
Proof.
  induction s as [|c' s IH]; [done|].
  rewrite append_cons. simpl. by rewrite IH, orb_assoc.
Qed.

Lemma repetition_suffix_inj (r r' : option (perturbation * nat)) :
  repetition_suffix r = repetition_suffix r' → r = r'.
Proof.
  destruct r as [[k i]|], r' as [[k' i']|]; simpl.
  - destruct k, k'; simpl; rewrite ?append_cons, ?append_nil;
      intros [= Heq]; try done; apply (inj pretty) in Heq; by subst.
  - destruct k; simpl; rewrite ?append_cons; discriminate.
  - destruct k'; simpl; rewrite ?append_cons; discriminate.
  - done.
Qed.

(** ** The rendering of a scalar *)

(** The decimal digits are written with none of the other characters. *)
Lemma has_char_pretty_N_go (c : ascii) (x : N) (s : string) :
  (∀ d, Ascii.eqb (pretty_N_char d) c = false) →
  has_char c (pretty_N_go x s) = has_char c s.
Proof.
  intros Hc. revert s. induction (N.lt_wf_0 x) as [x _ IH]; intros s.
  destruct (decide (x = 0%N)) as [->|Hx]; [by rewrite pretty_N_go_0|].
  rewrite pretty_N_go_step by lia. rewrite IH by (apply N.div_lt; lia).
  cbn [has_char]. by rewrite Hc.
Qed.

Lemma has_char_pretty_N (c : ascii) (x : N) :
  (∀ d, Ascii.eqb (pretty_N_char d) c = false) → Ascii.eqb "0" c = false →
  has_char c (pretty x) = false.
Proof.
  intros Hc H0. unfold pretty, pretty_N. case_decide.
  - cbn [has_char]. by rewrite H0.
  - by rewrite has_char_pretty_N_go.
Qed.

Lemma has_char_pretty_Z (c : ascii) (z : Z) :
  (∀ d, Ascii.eqb (pretty_N_char d) c = false) → Ascii.eqb "0" c = false →
  Ascii.eqb "-" c = false →
  has_char c (pretty z) = false.
Proof.
  intros Hc H0 Hminus. unfold pretty, pretty_Z. destruct z as [|p|p].
  - cbn [has_char]. by rewrite H0.
  - by apply has_char_pretty_N.
  - rewrite append_cons, append_nil. cbn [has_char]. rewrite Hminus.
    by apply has_char_pretty_N.
Qed.

Lemma separator_not_digit (d : N) : Ascii.eqb (pretty_N_char d) "_" = false.
Proof. unfold pretty_N_char. by repeat case_match. Qed.

Lemma p_not_digit (d : N) : Ascii.eqb (pretty_N_char d) "p" = false.
Proof. unfold pretty_N_char. by repeat case_match. Qed.

Lemma Prim2SF_inj_eq (x y : float) : Prim2SF x = Prim2SF y → x = y.
Proof.
  intros Heq. by rewrite <- (SF2Prim_Prim2SF x), <- (SF2Prim_Prim2SF y), Heq.
Qed.

Lemma render_scalar_no_separator (x : float) : has_char "_" (render_scalar x) = false.
Proof.
  unfold render_scalar. destruct (Prim2SF x) as [[]|[]| |[] m e]; try done;
    rewrite !has_char_app, (has_char_pretty_N "_"), (has_char_pretty_Z "_");
    try done; apply separator_not_digit.
Qed.

Lemma has_p_finite (s : bool) (m : positive) (e : Z) :
  has_char "p" (sign_mark s +:+ pretty (Npos m) +:+ "p" +:+ pretty e) = true.
Proof. rewrite !has_char_app. simpl. by rewrite !orb_true_r. Qed.

Lemma render_scalar_inj (x y : float) : render_scalar x = render_scalar y → x = y.
Proof.
  intros Heq. apply Prim2SF_inj_eq. revert Heq. unfold render_scalar.
  destruct (Prim2SF x) as [s|s| |s m e], (Prim2SF y) as [s'|s'| |s' m' e'];
    intros Heq;
    try (apply (f_equal (has_char "p")) in Heq; rewrite has_p_finite in Heq;
         repeat match goal with b : bool |- _ => destruct b end;
         vm_compute in Heq; discriminate Heq);
    try (repeat match goal with b : bool |- _ => destruct b end;
         vm_compute in Heq; (reflexivity || discriminate Heq)).
  assert (s = s') as <-.
  { destruct s, s'; try done; rewrite !append_cons in Heq; discriminate Heq. }
  apply (inj (String.app (sign_mark s))) in Heq.
  apply char_split in Heq as [Hm He];
    [|apply has_char_pretty_N; (done || apply p_not_digit)..].
  apply (inj pretty) in Hm. apply (inj pretty) in He. congruence.
Qed.

Lemma run_tag_inj (names : list string) (cell cell' : list float)
    (r r' : option (perturbation * nat)) :
  length cell = length names → length cell' = length names →
  run_tag names cell r = run_tag names cell' r' →
  cell = cell' ∧ r = r'.
Proof.
  unfold run_tag. revert cell cell'.
  induction names as [|name names IH]; intros [|v cell] [|v' cell'];
    simpl; try discriminate.
  - intros _ _ Heq. split; [done|]. by apply repetition_suffix_inj.
  - intros [= Hlen] [= Hlen'] Heq.
    rewrite !append_assoc in Heq. apply (inj (String.app name)) in Heq.
    rewrite !append_cons, !append_nil in Heq. injection Heq as Heq.
    apply char_split in Heq as [Hv Heq]; [|apply render_scalar_no_separator..].
    apply render_scalar_inj in Hv as ->.
    destruct (IH cell cell' Hlen Hlen' Heq) as [-> ->]. done.
Qed.

Section ProductFacts.
Context {V : Type}.

Lemma length_bind_cons (l : list V) (cs : list (list V)) :
  length (l ≫= λ x, cons x <$> cs) = length l * length cs.
Proof.
  induction l as [|x l IHl]; [done|].
  rewrite bind_cons, length_app, length_fmap, IHl. simpl. lia.
Qed.

Lemma length_product (ls : list (list V)) : length (product ls) = grid_size ls.
Proof.
  induction ls as [|l ls IH]; [done|].
  simpl. by rewrite length_bind_cons, IH.
Qed.

Lemma elem_of_product (ls : list (list V)) (c : list V) :
  c ∈ product ls → length c = length ls.
Proof.
  revert c. induction ls as [|l ls IH]; intros c; simpl.
  - by intros ->%list_elem_of_singleton.
  - intros (x & Hc & Hx)%list_elem_of_bind.
    apply list_elem_of_fmap in Hc as (c' & -> & Hc'). simpl. f_equal. by apply IH.
Qed.

Lemma NoDup_product (ls : list (list V)) :
  Forall NoDup ls → NoDup (product ls).
Proof.
  induction 1 as [|l ls Hl Hls IH]; simpl.
  - apply NoDup_singleton.
  - apply NoDup_bind; [| |done].
    + intros x1 x2 c _ _ (c1 & -> & _)%list_elem_of_fmap
                         (c2 & [= -> _] & _)%list_elem_of_fmap. done.
    + intros x _. apply NoDup_fmap_2; [|done]. by intros ?? [= ?].
Qed.
End ProductFacts.

(** C6: a grid with value lists of sizes k1, ..., kn emits k1 * ... * kn
    tags for each repetition group (so exactly the product when no
    randomization is configured); two distinct combinations of parameter
    values and repetition group never share a tag; and the emitted tags
    are pairwise distinct when no value list and no list of repetition
    groups names the same entry twice. *)
Theorem grid_tags_count_and_distinct
    (config : list (string * list float)) (reps : list (option (perturbation * nat))) :
  length (grid_tags config reps) = grid_size config.*2 * length reps
  ∧ length (grid_tags config [None]) = grid_size config.*2
  ∧ (∀ cell cell' r r',
       length cell = length config → length cell' = length config →
       (cell, r) ≠ (cell', r') →
       run_tag config.*1 cell r ≠ run_tag config.*1 cell' r')
  ∧ (Forall NoDup config.*2 → NoDup reps → NoDup (grid_tags config reps)).
Proof.
  assert (∀ rs, length (grid_tags config rs)
                = grid_size config.*2 * length rs) as Hlen.
  { intros rs. unfold grid_tags. rewrite <- length_product.
    induction (product config.*2) as [|c cs IH]; [done|].
    rewrite bind_cons, length_app, IH. simpl. f_equal.
    clear. induction rs as [|r rs IH]; [done|].
    rewrite bind_cons, length_app, IH. done. }
  assert (∀ cell cell' r r',
            length cell = length config → length cell' = length config →
            run_tag config.*1 cell r = run_tag config.*1 cell' r' →
            cell = cell' ∧ r = r') as Htag.
  { intros cell cell' r r' Hc Hc'.
    apply run_tag_inj; rewrite ?length_fmap; done. }
  split; [apply Hlen|]. split; [rewrite Hlen; simpl; lia|]. split.
  { intros cell cell' r r' Hc Hc' Hne Heq. apply Hne.
    by destruct (Htag cell cell' r r' Hc Hc' Heq) as [-> ->]. }
  intros Hlists Hreps. unfold grid_tags. apply NoDup_bind.
  - intros c1 c2 t Hc1%elem_of_product Hc2%elem_of_product
      (r1 & ->%list_elem_of_singleton & _)%list_elem_of_bind
      (r2 & Heq%list_elem_of_singleton & _)%list_elem_of_bind.
    rewrite length_fmap in Hc1, Hc2. by destruct (Htag c1 c2 r1 r2 Hc1 Hc2 Heq).
  - intros c Hc%elem_of_product. rewrite length_fmap in Hc.
    apply NoDup_bind; [| |done].
    + intros r1 r2 t _ _ ->%list_elem_of_singleton Heq%list_elem_of_singleton.
      by destruct (Htag c c r1 r2 Hc Hc Heq).
    + intros r _. apply NoDup_singleton.
  - by apply NoDup_product.
Qed.

(** The four tags of a 1 x 2 x 2 grid. *)
Lemma grid_tags_count_and_distinct_witness :
  length (grid_tags sample_grid [None]) = 4
  ∧ NoDup (grid_tags sample_grid [None])
  ∧ head (grid_tags sample_grid [None])
    = Some "w_+6755399441055744p-50_b_+4503599627370496p-52_g_+5629499534213120p-48_".
Proof.
  destruct (grid_tags_count_and_distinct sample_grid [None])
    as (_ & Hlen & _ & Hdistinct).
  split; [exact Hlen|]. split; [|by vm_compute].
  apply Hdistinct; [|apply NoDup_singleton].
  repeat constructor; rewrite ?elem_of_cons, ?elem_of_nil; intros Hin;
    repeat (destruct Hin as [Hin|Hin]); try done;
    apply (f_equal Prim2SF) in Hin; vm_compute in Hin; discriminate Hin.
Defined.

(** ** Random terminals *)

Section Selection.
Context (g : interactome) (exclude_terminals : bool) (originals : gset string).

Lemma elem_of_selectable (n : string) (d : nat) :
  n ∈ selectable g exclude_terminals originals d
  ↔ n ∈ dom (nx_nodes g) ∧ node_degree g n = d
    ∧ (Is_true exclude_terminals → n ∉ originals).
Proof.
  unfold selectable, bucket. rewrite !list_elem_of_filter, elem_of_elements. tauto.
Qed.






End Selection.



(** With the flag unset, terminals that are nodes of the interactome can
    take their own places: there are enough selectable nodes. *)
Lemma enough_candidates_without_exclusion (inst : instance) :
  dom (terminals (prizes inst)) ⊆ dom (nx_nodes (graph inst)) →
  enough_candidates inst false.
Proof.
  intros Hsub. unfold enough_candidates. cbv zeta. apply Forall_forall.
  intros tp _. set (d := node_degree (graph inst) tp.1).
  rewrite <- (length_fmap fst). apply submseteq_length, NoDup_submseteq.
  - eapply sublist_NoDup; [apply (NoDup_fst_map_to_list (terminals (prizes inst)))|].
    apply fmap_sublist, sublist_filter.
  - intros n ([n' prize] & -> & [Hdeg Hin]%list_elem_of_filter)%list_elem_of_fmap.
    cbn [fst] in *. apply elem_of_selectable.
    split; [|split; [done|by intros []]].
    apply Hsub, elem_of_dom. exists prize. by apply elem_of_map_to_list.
Qed.





(** ** Components and singletons *)

Section Components.
Context {A B : Type} (g : nxgraph A B).

Lemma adjacent_sym (u v : string) : adjacent g u v → adjacent g v u.
Proof. unfold adjacent. tauto. Qed.

Lemma isolated_adjacent (v : string) :
  isolated g v ↔ ∀ u, adjacent g v u → u = v.
Proof.
  unfold isolated, adjacent. rewrite Forall_forall. split.
  - intros Hall u [Hvu|Huv].
    + assert ((v, u) = (v, v)) as [= ->]; [|done].
      apply (Hall (v, u)); [|by left].
      by apply elem_of_elements, elem_of_dom.
    + assert ((u, v) = (v, v)) as [= ->]; [|done].
      apply (Hall (u, v)); [|by right].
      by apply elem_of_elements, elem_of_dom.
  - intros Hall [a b] Hin%elem_of_elements%elem_of_dom [Ha|Hb]; simpl in *; subst.
    + f_equal. apply Hall. by left.
    + f_equal. apply Hall. by right.
Qed.

Lemma source_in_bfs_iter (k : nat) (v : string) :
  v ∈ Nat.iter k (bfs_step g) ({[ v ]} : gset string).
Proof.
  induction k as [|k IH]; [by apply elem_of_singleton_2|].
  rewrite bfs_iter_S. by apply bfs_step_subseteq.
Qed.

Lemma bfs_step_mono (S T : gset string) : S ⊆ T → bfs_step g S ⊆ bfs_step g T.
Proof.
  intros Hsub u [Hu|(w & Hw & Hwu)]%elem_of_bfs_step; apply elem_of_bfs_step.
  - left. by apply Hsub.
  - right. exists w. split; [by apply Hsub|done].
Qed.

Lemma bfs_step_isolated (v : string) :
  isolated g v ↔ bfs_step g {[ v ]} = {[ v ]}.
Proof.
  rewrite isolated_adjacent. split.
  - intros Hiso. apply set_eq. intros u. rewrite elem_of_bfs_step. split.
    + intros [Hu|(w & ->%elem_of_singleton & Hwu)]; [done|].
      apply elem_of_singleton_2. by apply Hiso.
    + by left.
  - intros Hfix u Hvu.
    assert (u ∈ bfs_step g {[ v ]}) as Hu.
    { apply elem_of_bfs_step. right. exists v.
      split; [by apply elem_of_singleton_2|done]. }
    rewrite Hfix in Hu. by apply elem_of_singleton in Hu.
Qed.

Lemma bfs_iter_isolated (k : nat) (v : string) :
  bfs_step g {[ v ]} = {[ v ]} → Nat.iter k (bfs_step g) {[ v ]} = {[ v ]}.
Proof.
  intros Hfix. induction k as [|k IH]; [done|]. by rewrite bfs_iter_S, IH.
Qed.

Lemma plain_bfs_singleton (v : string) :
  v ∈ dom (nx_nodes g) → size (plain_bfs g v) = 1 ↔ isolated g v.
Proof.
  intros Hv. unfold plain_bfs.
  assert (number_of_nodes g ≠ 0) as Hpos.
  { unfold number_of_nodes. rewrite <- size_dom. intros Hz.
    apply size_empty_inv in Hz. apply leibniz_equiv in Hz. rewrite Hz in Hv.
    by apply not_elem_of_empty in Hv. }
  destruct (number_of_nodes g) as [|k]; [done|]. clear Hpos.
  rewrite bfs_step_isolated. split.
  - intros Hsize. apply size_1_elem_of in Hsize as [x Hx].
    apply leibniz_equiv in Hx.
    pose proof (source_in_bfs_iter (S k) v) as Hin.
    rewrite Hx in Hin. apply elem_of_singleton in Hin as <-.
    apply set_eq. intros u. split; [|apply bfs_step_subseteq].
    intros Hu. rewrite <- Hx, bfs_iter_S.
    apply (bfs_step_mono {[ v ]}); [|done].
    apply singleton_subseteq_l, source_in_bfs_iter.
  - intros Hfix. rewrite bfs_iter_isolated by done. apply size_singleton.
Qed.

Lemma reached_from_elsewhere (v u : string) :
  rtc (adjacent g) v u → v ≠ u → ∃ w, w ≠ u ∧ adjacent g w u.
Proof.
  revert u. apply (rtc_ind_r (λ u, v ≠ u → ∃ w, w ≠ u ∧ adjacent g w u)); [done|].
  intros w u Hvw Hwu IH Hne.
  destruct (decide (w = u)) as [->|Hwne]; [by apply IH|]. by exists w.
Qed.

Lemma isolated_not_reached (v u : string) :
  isolated g u → u ∈ plain_bfs g v → u = v.
Proof.
  intros Hiso Hu. destruct (decide (v = u)) as [|Hne]; [done|].
  apply bfs_iter_reachable, reached_from_elsewhere in Hu as (w & Hw & Hwu); [|done].
  apply adjacent_sym in Hwu. destruct Hw. by apply isolated_adjacent in Hwu.
Qed.

Lemma length_components_from (vs : list string) (seen : gset string) :
  length (components_from g vs seen) ≤ length vs.
Proof.
  revert seen. induction vs as [|v vs IH]; intros seen; simpl; [done|].
  destruct (decide (v ∈ seen)); simpl.
  - specialize (IH seen). lia.
  - specialize (IH (seen ∪ plain_bfs g v)). lia.
Qed.

Lemma singletons_components_from (vs : list string) (seen : gset string) :
  NoDup vs → (∀ v, v ∈ vs → v ∈ dom (nx_nodes g)) →
  (∀ v, v ∈ vs → isolated g v → v ∉ seen) →
  length (filter (λ x : gset string, size x = 1) (components_from g vs seen))
  = length (filter (isolated g) vs).
Proof.
  revert seen. induction vs as [|v vs IH]; intros seen Hnd Hnodes Hseen; [done|].
  apply NoDup_cons in Hnd as [Hv Hnd]. simpl.
  assert (∀ u, u ∈ vs → u ∈ dom (nx_nodes g)) as Hnodes'.
  { intros u Hu. apply Hnodes. by right. }
  rewrite (filter_cons (isolated g)).
  destruct (decide (v ∈ seen)) as [Hin|Hout].
  - rewrite decide_False.
    + apply IH; [done|done|]. intros u Hu. apply Hseen. by right.
    + intros Hiso. by apply (Hseen v); [left|..].
  - rewrite filter_cons.
    assert (length (filter (λ x : gset string, size x = 1)
                      (components_from g vs (seen ∪ plain_bfs g v)))
            = length (filter (isolated g) vs)) as Hrest.
    { apply IH; [done|done|]. intros u Hu Hiso [Hs|Hc]%elem_of_union.
      - by apply (Hseen u); [right|..].
      - apply isolated_not_reached in Hc; [|done]. by subst. }
    destruct (decide (isolated g v)) as [Hiso|Hiso].
    + rewrite decide_True by (apply plain_bfs_singleton; [apply Hnodes; by left|done]).
      simpl. by rewrite Hrest.
    + rewrite decide_False; [done|].
      intros Hsize. apply Hiso. apply plain_bfs_singleton; [apply Hnodes; by left|done].
Qed.
End Components.

(** X1: in every returned record the counts are ordered, singletons <=
    components <= nodes, and there is no component exactly when there is no
    node. *)
Theorem summary_components_bounds {B} (g : nxgraph node_attrs B) (t : string) :
  let row := get_summary_statistics_from_nxgraph g t in
  n_singletons row ≤ n_components row
  ∧ n_components row ≤ n_all row
  ∧ (n_components row = 0 ↔ n_all row = 0).
Proof.
  simpl. unfold number_connected_components, connected_components.
  rewrite length_map_to_list, <- size_dom.
  assert (size (dom (nx_nodes g)) = length (elements (dom (nx_nodes g)))) as -> by done.
  split; [apply length_filter|]. split; [apply length_components_from|].
  destruct (elements (dom (nx_nodes g))) as [|v vs]; [done|]. simpl.
  rewrite decide_False by apply not_elem_of_empty. simpl. split; discriminate.
Qed.

(** X2: the singleton count of the record is the number of isolated nodes
    of the graph, the nodes that no edge joins to another node. *)
Theorem singletons_are_isolated_nodes {B} (g : nxgraph node_attrs B) (t : string) :
  n_singletons (get_summary_statistics_from_nxgraph g t)
  = length (filter (isolated g) (elements (dom (nx_nodes g))))
  ∧ ∀ v, isolated g v ↔ ∀ u, adjacent g v u → u = v.
Proof.
  split; [|apply isolated_adjacent]. simpl. unfold connected_components.
  apply singletons_components_from.
  - apply NoDup_elements.
  - intros v Hv. by apply elem_of_elements in Hv.
  - intros v _ _. apply not_elem_of_empty.
Qed.

(** ** Options given on the command line *)

Lemma params_keys_complete (inv : invocation) (k : string) :
  is_Some (params_of (parse_args inv) !! k) → k ∈ params_keys.
Proof.
  intros [v Hk]. apply elem_of_list_to_map_2 in Hk.
  apply list_elem_of_filter in Hk as [_ Hk].
  unfold params_items in Hk. unfold params_keys.
  rewrite !elem_of_cons, elem_of_nil in Hk. rewrite !elem_of_cons, elem_of_nil.
  repeat (destruct Hk as [[= -> _]|Hk]; [tauto|]). done.
Qed.

(** X5: an option given on the command line reaches the configuration
    mapping with its own value (floats for w, b, g and noise, integers for
    the repetition counts and the seed, the string of the dummy mode), the
    terminal-exclusion flag is always in the mapping, the mapping has no key
    besides the nine of the dictionary literal, and none for the knockout
    list. *)
Theorem given_options_reach_the_mapping (inv : invocation) :
  let params := params_of (parse_args inv) in
  (∀ l, opt_w inv = Some l → params !! "w" = Some (PyList (PyFloat <$> l)))
  ∧ (∀ l, opt_b inv = Some l → params !! "b" = Some (PyList (PyFloat <$> l)))
  ∧ (∀ l, opt_g inv = Some l → params !! "g" = Some (PyList (PyFloat <$> l)))
  ∧ (∀ x, opt_noise inv = Some x → params !! "noise" = Some (PyFloat x))
  ∧ (∀ n, opt_noisy_edges inv = Some n →
       params !! "noisy_edges_repetitions" = Some (PyInt n))
  ∧ (∀ n, opt_random_terminals inv = Some n →
       params !! "random_terminals_repetitions" = Some (PyInt n))
  ∧ (∀ s, opt_dummyMode inv = Some s → params !! "dummy_mode" = Some (PyStr s))
  ∧ (∀ n, opt_seed inv = Some n → params !! "seed" = Some (PyInt n))
  ∧ params !! "exclude_terminals" = Some (PyBool (opt_excludeTerminals inv))
  ∧ (∀ k, is_Some (params !! k) → k ∈ params_keys)
  ∧ params !! "knockout" = None.
Proof.
  simpl. pose proof (params_keys_complete inv) as Hkeys.
  repeat lazymatch goal with
         | |- (∀ _, _ = Some _ → _) ∧ _ => split
         end;
    [..|split; [|split; [exact Hkeys|]]]; clear Hkeys;
    destruct inv as [e p o [w|] [b|] [g|] [noise|] [ne|] [rt|] ko [dm|] et [seed|]];
    try reflexivity;
    intros x Hopt; cbv in Hopt; try discriminate Hopt;
    injection Hopt as ->; reflexivity.
Qed.

(** An invocation that gives every option. *)
Lemma given_options_reach_the_mapping_witness :
  let params := params_of (parse_args full_invocation) in
  params !! "w" = Some (PyList [PyFloat 2; PyFloat 4])
  ∧ params !! "noise" = Some (PyFloat 0.5)
  ∧ params !! "noisy_edges_repetitions" = Some (PyInt 5)
  ∧ params !! "dummy_mode" = Some (PyStr "all")
  ∧ params !! "seed" = Some (PyInt 42).
Proof.
  destruct (given_options_reach_the_mapping full_invocation)
    as (Hw & _ & _ & Hnoise & Hne & _ & Hdm & Hseed & _).
  simpl.
  split; [apply (Hw [2%float; 4%float]); reflexivity|].
  split; [apply Hnoise; reflexivity|]. split; [apply Hne; reflexivity|].
  split; [apply Hdm; reflexivity|apply Hseed; reflexivity].
Defined.

(** X6: the [--knockout] option changes neither the configuration mapping
    nor anything that [main] writes or prints. *)
Theorem knockout_is_ignored (cwd : string)
    (gs : string → string → gmap string pyval → list result) (inv : invocation)
    (knockout : option (list string)) :
  params_of (parse_args (with_knockout knockout inv)) = params_of (parse_args inv)
  ∧ main cwd gs (with_knockout knockout inv) = main cwd gs inv.
Proof.
  assert (params_of (parse_args (with_knockout knockout inv))
          = params_of (parse_args inv)) as Hparams by done.
  split; [done|].
  rewrite !main_spec. simpl. rewrite Hparams. done.
Qed.

(** ** What the loop prints and what it does not read *)

(** X7: [main] prints one line for each result whose augmented forest is
    empty, in the order of the results, and prints nothing else. *)
Theorem empty_results_are_the_lines_printed (cwd : string)
    (gs : string → string → gmap string pyval → list result) (inv : invocation) :
  ∃ out, main cwd gs inv = Ok out
    ∧ printed_lines out
      = (λ r : result, r.1.1 +:+ " is empty, results not printed.")
          <$> filter (λ r : result, number_of_nodes r.2 = 0)
                (gs (opt_edge inv) (opt_prize inv) (params_of (parse_args inv))).
Proof.
  eexists. split; [apply main_spec|]. simpl.
  set (results := gs _ _ _). set (single := single_run inv).
  assert (printed_lines (concat (result_events cwd (opt_output inv) single <$> results))
          = (λ r : result, r.1.1 +:+ " is empty, results not printed.")
              <$> filter (λ r : result, number_of_nodes r.2 = 0) results) as Hloop.
  { induction results as [|r results IH]; [done|].
    rewrite fmap_cons, filter_cons. simpl. unfold printed_lines in *.
    rewrite omap_app, IH. unfold result_events.
    destruct (decide (0 < number_of_nodes r.2)) as [Hpos|Hzero].
    - rewrite decide_False by lia. by destruct single.
    - rewrite decide_True by lia. done. }
  unfold write_summary. simpl.
  destruct (summary_rows single results); [done|].
  unfold printed_lines in *. rewrite omap_app, Hloop. simpl. by rewrite app_nil_r.
Qed.

(** X8: in a single test run [main] reads the augmented forest of a result
    only to test whether it is empty, and when a repetition count is not 0
    it does not read the forest at all: results that agree on the rest give
    the same run. *)
Theorem main_reads_one_graph_per_result (cwd : string)
    (gs gs' : string → string → gmap string pyval → list result) (inv : invocation) :
  Forall2 (same_for_main (single_run inv))
    (gs (opt_edge inv) (opt_prize inv) (params_of (parse_args inv)))
    (gs' (opt_edge inv) (opt_prize inv) (params_of (parse_args inv))) →
  main cwd gs inv = main cwd gs' inv.
Proof.
  intros Hsame. rewrite !main_spec. simpl.
  set (results := gs _ _ _) in *. set (results' := gs' _ _ _) in *.
  set (single := single_run inv) in *.
  assert (concat (result_events cwd (opt_output inv) single <$> results)
          = concat (result_events cwd (opt_output inv) single <$> results')
          ∧ summary_rows single results = summary_rows single results') as [-> ->];
    [|done].
  induction Hsame as [|r r' rs rs' [Htag Hr] Hrest [IHev IHrows]]; [done|].
  change (r :: rs) with ([r] ++ rs). change (r' :: rs') with ([r'] ++ rs').
  rewrite !summary_rows_app, !fmap_app, !concat_app, IHev, IHrows.
  assert (result_events cwd (opt_output inv) single r
          = result_events cwd (opt_output inv) single r'
          ∧ summary_rows single [r] = summary_rows single [r']) as [Hev Hrows].
  { unfold result_events, summary_rows. rewrite !filter_cons, !filter_nil.
    destruct single.
    - destruct Hr as [Hforest Hempty].
      destruct (decide (0 < number_of_nodes r.2)) as [Hpos|Hzero].
      + rewrite !decide_True by tauto. simpl. by rewrite Htag, Hforest.
      + rewrite !decide_False by tauto. simpl. by rewrite Htag.
    - by rewrite Htag, Hr. }
  simpl. by rewrite Hev, Hrows.
Qed.

(** The same forests with other non-empty augmented forests: the augmented
    forests of the first and of the third result differ, the runs do not. *)
Lemma main_reads_one_graph_per_result_witness :
  (∀ r r' : result,
     (r, r') ∈ zip (three_cells "edges.tsv" "prizes.tsv" ∅)
                   (three_cells_other "edges.tsv" "prizes.tsv" ∅) →
     0 < number_of_nodes r.2 → nx_nodes r.2 !! "C" ≠ nx_nodes r'.2 !! "C")
  ∧ main sample_cwd three_cells bare_invocation
    = main sample_cwd three_cells_other bare_invocation.
Proof.
  split.
  - intros r r' Hin Hpos.
    cbn [three_cells three_cells_other zip zip_with] in Hin.
    rewrite !elem_of_cons, elem_of_nil in Hin.
    destruct Hin as [[= -> ->]|[[= -> ->]|[[= -> ->]|[]]]].
    + vm_compute. discriminate.
    + vm_compute in Hpos. lia.
    + vm_compute. by intros [=].
  - apply (main_reads_one_graph_per_result sample_cwd three_cells three_cells_other
             bare_invocation).
    repeat constructor; vm_compute; lia.
Defined.

(** ** File names *)

(** The characters of a string, last first. *)
Lemma rev_list_of_append (s e : string) :
  rev (Stdlib.Strings.String.list_ascii_of_string (s +:+ e))
  = rev (Stdlib.Strings.String.list_ascii_of_string e)
    ++ rev (Stdlib.Strings.String.list_ascii_of_string s).
Proof. by rewrite list_of_append, rev_app_distr. Qed.

Ltac last_chars H :=
  apply (f_equal (λ s, rev (Stdlib.Strings.String.list_ascii_of_string s))) in H;
  rewrite !rev_list_of_append in H;
  rewrite ?list_of_append, ?rev_app_distr in H;
  simpl in H.

Lemma table_ending_inj (tg tg' e e' : string) :
  e ∈ table_endings → e' ∈ table_endings →
  tg +:+ e = tg' +:+ e' → tg = tg' ∧ e = e'.
Proof.
  unfold table_endings. rewrite !elem_of_cons, !elem_of_nil.
  intros [->|[->|[]]] [->|[->|[]]] Heq;
    try (split; [by apply append_inv_tail in Heq|done]);
    exfalso; last_chars Heq; discriminate Heq.
Qed.

Lemma starts_with_slash_app (s t : string) :
  s ≠ "" → starts_with_slash (s +:+ t) = starts_with_slash s.
Proof.
  intros Hs. destruct s; [done|]. rewrite append_cons.
  reflexivity.
Qed.

Lemma starts_with_slash_table (tg e : string) :
  e ∈ table_endings → starts_with_slash (tg +:+ e) = starts_with_slash tg.
Proof.
  intros He. destruct tg as [|c tg]; [|done]. rewrite append_nil.
  unfold table_endings in He. rewrite !elem_of_cons, !elem_of_nil in He.
  by destruct He as [->|[->|[]]].
Qed.

(** ** [os.path.join] *)

Lemma path_join_absolute (a b : string) :
  starts_with_slash b = true → path_join a b = b.
Proof. unfold path_join. by intros ->. Qed.

Lemma path_join_relative (a b : string) :
  starts_with_slash b = false → path_join a b = dir_prefix a +:+ b.
Proof.
  unfold path_join, dir_prefix. intros ->.
  destruct (bool_decide (a = "") || ends_with_slash a); [done|].
  by rewrite append_assoc.
Qed.

Lemma path_join_inj (a b b' : string) :
  starts_with_slash b = starts_with_slash b' →
  path_join a b = path_join a b' → b = b'.
Proof.
  intros Hkind. destruct (starts_with_slash b) eqn:Hb.
  - by rewrite !path_join_absolute.
  - rewrite !path_join_relative by done. apply (inj (String.app _)).
Qed.

Lemma ends_with_slash_app (s t : string) :
  t ≠ "" → ends_with_slash (s +:+ t) = ends_with_slash t.
Proof.
  intros Ht. induction s as [|c s IH]; [done|].
  rewrite append_cons. simpl. rewrite IH.
  destruct (s +:+ t) eqn:Heq; [|done].
  destruct s; [|done]. by rewrite append_nil in Heq.
Qed.

Lemma ends_with_slash_inv (s : string) :
  ends_with_slash s = true → ∃ s', s = s' +:+ "/".
Proof.
  induction s as [|c s IH]; [done|]. simpl. destruct s as [|c' s].
  - intros ->%Ascii.eqb_eq. by exists "".
  - intros [s' ->]%IH. by exists (String c s').
Qed.

Lemma dir_prefix_slash (a : string) : a ≠ "" → ∃ a', dir_prefix a = a' +:+ "/".
Proof.
  intros Ha. unfold dir_prefix. rewrite bool_decide_eq_false_2 by done. simpl.
  destruct (ends_with_slash a) eqn:Hends; [by apply ends_with_slash_inv|by exists a].
Qed.

(** ** [os.path.normpath] *)

(** Empty and dot components go, a double dot takes the component before it
    away, two leading slashes stay and three become one; a relative path is
    put after the working directory. *)
Lemma normpath_examples :
  normpath <$> ["/a/b/../c/./d/"; "//a"; "///a"; "a/../.."; "/.."; ""]
  = ["/a/c/d"; "//a"; "/a"; ".."; "/"; "."]
  ∧ abspath sample_cwd <$> ["/out"; "out"; "../out/"; "."]
    = ["/out"; "/home/user/out"; "/home/out"; "/home/user"].
Proof. split; reflexivity. Qed.

Lemma split_slash_not_nil (path : string) : split_slash path ≠ [].
Proof.
  destruct path as [|c path]; [done|]. simpl.
  by destruct (Ascii.eqb c "/"), (split_slash path).
Qed.

Lemma split_slash_snoc (w sub : string) :
  sub ∈ main_subfolders →
  split_slash (w +:+ "/" +:+ sub) = split_slash w ++ [sub].
Proof.
  intros Hsub. induction w as [|c w IH].
  - unfold main_subfolders in Hsub. rewrite !elem_of_cons, !elem_of_nil in Hsub.
    by destruct Hsub as [->|[->|[->|[]]]].
  - rewrite append_cons. simpl. rewrite IH.
    destruct (Ascii.eqb c "/"); [done|].
    pose proof (split_slash_not_nil w). by destruct (split_slash w).
Qed.

Lemma normpath_step_subfolder (k : nat) (new_comps : list string) (sub : string) :
  sub ∈ main_subfolders → normpath_step k new_comps sub = sub :: new_comps.
Proof.
  intros Hsub. unfold normpath_step.
  unfold main_subfolders in Hsub. rewrite !elem_of_cons, !elem_of_nil in Hsub.
  rewrite bool_decide_eq_false_2, bool_decide_eq_true_2; [done| |].
  - left. by destruct Hsub as [->|[->|[->|[]]]].
  - by destruct Hsub as [->|[->|[->|[]]]]; intros [|].
Qed.

Lemma initial_slashes_subfolder (w sub : string) :
  sub ∈ main_subfolders →
  initial_slashes (w +:+ "/" +:+ sub) = initial_slashes (w +:+ "/").
Proof.
  intros Hsub. unfold main_subfolders in Hsub.
  rewrite !elem_of_cons, !elem_of_nil in Hsub.
  unfold initial_slashes, starts_with_slash.
  destruct w as [|c1 [|c2 [|c3 w]]]; rewrite ?append_cons, ?append_nil; simpl;
    repeat (match goal with |- context [Ascii.eqb ?a ?b] => destruct (Ascii.eqb a b) end;
            simpl);
    try done; by destruct Hsub as [->|[->|[->|[]]]].
Qed.

Lemma concat_snoc (sep : string) (l : list string) (x : string) :
  Stdlib.Strings.String.concat sep (l ++ [x])
  = match l with
    | [] => x
    | _ => Stdlib.Strings.String.concat sep l +:+ sep +:+ x
    end.
Proof.
  induction l as [|y l IH]; [done|].
  change ((y :: l) ++ [x]) with (y :: (l ++ [x])).
  destruct l as [|z l]; [done|].
  change (Stdlib.Strings.String.concat sep (y :: (z :: l) ++ [x]))
    with (y +:+ sep +:+ Stdlib.Strings.String.concat sep ((z :: l) ++ [x])).
  rewrite IH.
  change (Stdlib.Strings.String.concat sep (y :: z :: l))
    with (y +:+ sep +:+ Stdlib.Strings.String.concat sep (z :: l)).
  by rewrite !append_assoc.
Qed.

(** [normpath] keeps a subfolder of [main] that ends a path, and what it
    puts before it does not depend on the subfolder. *)
Lemma normpath_subfolder (w : string) :
  ∃ z, ∀ sub, sub ∈ main_subfolders →
    normpath (w +:+ "/" +:+ sub) = z +:+ sub.
Proof.
  set (k := initial_slashes (w +:+ "/")).
  set (comps := rev (fold_left (normpath_step k) (split_slash w) [])).
  exists (Nat.iter k (String "/"%char) ""
          +:+ match comps with
              | [] => ""
              | _ => Stdlib.Strings.String.concat "/" comps +:+ "/"
              end).
  intros sub Hsub. unfold normpath.
  rewrite initial_slashes_subfolder by done. fold k.
  rewrite split_slash_snoc, fold_left_app by done. simpl.
  rewrite normpath_step_subfolder by done. simpl. fold comps.
  rewrite concat_snoc.
  assert (sub ≠ "") as Hne.
  { unfold main_subfolders in Hsub. rewrite !elem_of_cons, !elem_of_nil in Hsub.
    by destruct Hsub as [->|[->|[->|[]]]]. }
  assert (∀ s t : string, t ≠ "" → s +:+ t ≠ "") as Happ.
  { intros [|c s] t Ht; [by rewrite append_nil|by rewrite append_cons]. }
  rewrite bool_decide_eq_false_2.
  2:{ destruct w; [by rewrite append_nil|by rewrite append_cons]. }
  rewrite bool_decide_eq_false_2.
  2:{ apply Happ. destruct comps; [done|]. by apply Happ. }
  rewrite append_assoc. f_equal. destruct comps; [done|].
  by rewrite append_assoc.
Qed.

Lemma normpath_not_empty (path : string) : normpath path ≠ "".
Proof.
  unfold normpath. destruct (bool_decide (path = "")); [done|].
  simpl. case_bool_decide; done.
Qed.

(** The directory that [output_dataframe_to_tsv] writes into, for a
    subfolder of [main]: what comes before the subfolder is the same for
    every subfolder. *)
Lemma graph_dir_prefix (cwd project_dir : string) :
  ∃ z, ∀ sub, sub ∈ main_subfolders →
    dir_prefix (abspath cwd (path_join (abspath cwd project_dir) sub))
    = z +:+ sub +:+ "/".
Proof.
  destruct (dir_prefix_slash (abspath cwd project_dir)) as [a' Ha'];
    [apply normpath_not_empty|].
  assert (∃ w, ∀ sub, sub ∈ main_subfolders →
            (if starts_with_slash (path_join (abspath cwd project_dir) sub)
             then path_join (abspath cwd project_dir) sub
             else path_join cwd (path_join (abspath cwd project_dir) sub))
            = w +:+ "/" +:+ sub) as [w Hw].
  { assert (∀ sub, sub ∈ main_subfolders →
              path_join (abspath cwd project_dir) sub = a' +:+ "/" +:+ sub) as Hjoin.
    { intros sub Hsub. rewrite path_join_relative, Ha', append_assoc; [done|].
      unfold main_subfolders in Hsub. rewrite !elem_of_cons, !elem_of_nil in Hsub.
      by destruct Hsub as [->|[->|[->|[]]]]. }
    destruct (starts_with_slash (a' +:+ "/")) eqn:Habs.
    - exists a'. intros sub Hsub. rewrite Hjoin by done.
      rewrite <-append_assoc, starts_with_slash_app, Habs, append_assoc; [done|].
      by destruct a'.
    - exists (dir_prefix cwd +:+ a'). intros sub Hsub. rewrite Hjoin by done.
      rewrite <-(append_assoc a'), starts_with_slash_app, Habs; [|by destruct a'].
      rewrite path_join_relative, !append_assoc; [done|].
      rewrite starts_with_slash_app, Habs; [done|by destruct a']. }
  destruct (normpath_subfolder w) as [z Hz]. exists z. intros sub Hsub.
  unfold abspath at 1. rewrite Hw, Hz by done.
  assert (sub ≠ "") as Hne.
  { unfold main_subfolders in Hsub. rewrite !elem_of_cons, !elem_of_nil in Hsub.
    by destruct Hsub as [->|[->|[->|[]]]]. }
  unfold dir_prefix. rewrite bool_decide_eq_false_2.
  2:{ destruct z; [by rewrite append_nil|by rewrite append_cons]. }
  rewrite ends_with_slash_app by done.
  replace (ends_with_slash sub) with false; [by rewrite append_assoc|].
  unfold main_subfolders in Hsub. rewrite !elem_of_cons, !elem_of_nil in Hsub.
  by destruct Hsub as [->|[->|[->|[]]]].
Qed.

(** ** Output files *)

Lemma written_paths_app (l1 l2 : list event) :
  written_paths (l1 ++ l2) = written_paths l1 ++ written_paths l2.
Proof. apply omap_app. Qed.

Lemma written_paths_graph_files (cwd : string) (g : graph_value)
    (dir tg subfolder : string) :
  written_paths (output_networkx_graph_as_files cwd g dir tg subfolder).1
  = graph_files cwd dir subfolder tg.
Proof. reflexivity. Qed.

Lemma graph_files_NoDup (cwd dir subfolder tg : string) :
  NoDup (graph_files cwd dir subfolder tg).
Proof.
  unfold graph_files. apply NoDup_fmap_2_strong.
  - intros e e' He He' Heq. apply path_join_inj in Heq.
    + by apply (inj (String.app tg)) in Heq.
    + by rewrite !starts_with_slash_table.
  - unfold table_endings. apply NoDup_cons. split; [|apply NoDup_singleton].
    by intros ?%list_elem_of_singleton.
Qed.

Lemma graph_files_tag (cwd dir subfolder tg tg' p : string) :
  relative_tag tg → relative_tag tg' →
  p ∈ graph_files cwd dir subfolder tg → p ∈ graph_files cwd dir subfolder tg' →
  tg = tg'.
Proof.
  unfold graph_files, relative_tag. intros Htg Htg'.
  intros (e & -> & He)%list_elem_of_fmap (e' & Heq & He')%list_elem_of_fmap.
  apply path_join_inj in Heq.
  - by apply table_ending_inj in Heq as [? _].
  - by rewrite !starts_with_slash_table, Htg, Htg'.
Qed.

Lemma graph_file_ending (cwd dir subfolder tg p : string) :
  p ∈ graph_files cwd dir subfolder tg →
  ∃ x e, e ∈ table_endings ∧ p = x +:+ e.
Proof.
  unfold graph_files. intros (e & -> & He)%list_elem_of_fmap.
  destruct (starts_with_slash (tg +:+ e)) eqn:Hkind.
  - exists tg, e. by rewrite path_join_absolute.
  - eexists _, e. by rewrite path_join_relative, <-append_assoc.
Qed.



(** A tag that is an absolute path takes the place of another tag's file. *)
Lemma absolute_tag_collides :
  written_paths
    (output_networkx_graph_as_files sample_cwd (ForestValue path_graph) "/out"
       "/out/forest/t" "forest").1
  = written_paths
      (output_networkx_graph_as_files sample_cwd (ForestValue path_graph) "/out"
         "t" "forest").1.
Proof. reflexivity. Qed.

Lemma graph_files_owner (cwd dir sub sub' tg tg' p : string) :
  sub ∈ main_subfolders → sub' ∈ main_subfolders →
  relative_tag tg → relative_tag tg' →
  p ∈ graph_files cwd dir sub tg → p ∈ graph_files cwd dir sub' tg' →
  sub = sub' ∧ tg = tg'.
Proof.
  intros Hsub Hsub' Htg Htg' Hp Hp'.
  assert (sub = sub') as <-.
  { destruct (graph_dir_prefix cwd dir) as [z Hz].
    unfold graph_files in Hp, Hp'.
    apply list_elem_of_fmap in Hp as (e & -> & He).
    apply list_elem_of_fmap in Hp' as (e' & Heq & He').
    unfold relative_tag in Htg, Htg'.
    rewrite (path_join_relative _ (tg +:+ e)) in Heq
      by by rewrite starts_with_slash_table.
    rewrite (path_join_relative _ (tg' +:+ e')) in Heq
      by by rewrite starts_with_slash_table.
    rewrite !Hz, !append_assoc in Heq by done.
    apply (inj (String.app z)) in Heq.
    unfold main_subfolders in Hsub, Hsub'.
    rewrite !elem_of_cons, !elem_of_nil in Hsub, Hsub'.
    destruct Hsub as [->|[->|[->|[]]]], Hsub' as [->|[->|[->|[]]]];
      try done; rewrite !append_cons in Heq; discriminate Heq. }
  split; [done|]. by apply (graph_files_tag cwd dir sub tg tg' p).
Qed.

Lemma summary_path_not_graph_file (cwd dir dir' sub tg : string) :
  dir' +:+ "/summary_stats.tsv" ∉ graph_files cwd dir sub tg.
Proof.
  intros (x & e & He & Heq)%graph_file_ending.
  unfold table_endings in He. rewrite !elem_of_cons, !elem_of_nil in He.
  destruct He as [->|[->|[]]]; last_chars Heq; discriminate Heq.
Qed.

Lemma written_paths_result_events (cwd dir : string) (single : bool) (r : result)
    (p : string) :
  p ∈ written_paths (result_events cwd dir single r) →
  0 < number_of_nodes r.2
  ∧ ∃ sub, sub ∈ main_subfolders ∧ p ∈ graph_files cwd dir sub r.1.1.
Proof.
  unfold result_events. destruct (decide (0 < number_of_nodes r.2)) as [Hpos|];
    [|by intros ?%elem_of_nil].
  intros Hp. split; [done|]. destruct single.
  - rewrite written_paths_graph_files in Hp. exists "forest". split; [|done].
    by apply (bool_decide_unpack _).
  - rewrite written_paths_app, !written_paths_graph_files in Hp.
    apply elem_of_app in Hp as [Hp|Hp].
    + exists "augmented_forest". split; [|done]. by apply (bool_decide_unpack _).
    + exists "robust_network". split; [|done]. by apply (bool_decide_unpack _).
Qed.

Lemma written_paths_result_NoDup (cwd dir : string) (single : bool) (r : result) :
  relative_tag r.1.1 →
  NoDup (written_paths (result_events cwd dir single r)).
Proof.
  intros Htag.
  unfold result_events. destruct (decide (0 < number_of_nodes r.2)); [|constructor].
  destruct single.
  - rewrite written_paths_graph_files. apply graph_files_NoDup.
  - rewrite written_paths_app, !written_paths_graph_files.
    apply NoDup_app. split; [apply graph_files_NoDup|].
    split; [|apply graph_files_NoDup].
    intros p Hp Hp'.
    destruct (graph_files_owner cwd dir "augmented_forest" "robust_network"
                r.1.1 r.1.1 p) as [Hsub _]; try done;
      by apply (bool_decide_unpack _).
Qed.

Lemma written_paths_loop (cwd dir : string) (single : bool) (results : list result)
    (p : string) :
  p ∈ written_paths (concat (result_events cwd dir single <$> results)) →
  ∃ tg sub, tg ∈ reported_tags results ∧ sub ∈ main_subfolders
            ∧ p ∈ graph_files cwd dir sub tg.
Proof.
  induction results as [|r results IH]; simpl; [by intros ?%elem_of_nil|].
  rewrite written_paths_app, elem_of_app. unfold reported_tags.
  rewrite filter_cons. intros [Hp|Hp].
  - apply written_paths_result_events in Hp as (Hpos & sub & Hsub & Hp).
    exists r.1.1, sub. rewrite decide_True by done. split; [by left|done].
  - destruct (IH Hp) as (tg & sub & Htg & Hsub & Hfile).
    exists tg, sub. split; [|done].
    destruct (decide (0 < number_of_nodes r.2)); [by right|done].
Qed.

Lemma written_paths_loop_NoDup (cwd dir : string) (single : bool)
    (results : list result) :
  NoDup (reported_tags results) →
  Forall relative_tag (reported_tags results) →
  NoDup (written_paths (concat (result_events cwd dir single <$> results))).
Proof.
  induction results as [|r results IH]; simpl; [constructor|].
  unfold reported_tags. rewrite filter_cons, written_paths_app. intros Htags Hrel.
  destruct (decide (0 < number_of_nodes r.2)) as [Hpos|Hzero].
  - rewrite fmap_cons in Htags, Hrel.
    apply NoDup_cons in Htags as [Hfresh Htags].
    apply Forall_cons in Hrel as [Hr Hrel].
    apply NoDup_app. split; [by apply written_paths_result_NoDup|].
    split; [|by apply IH].
    intros p (_ & sub & Hsub & Hp)%written_paths_result_events
             (tg & sub' & Htg & Hsub' & Hp')%written_paths_loop.
    destruct (graph_files_owner cwd dir sub sub' r.1.1 tg p) as [_ <-];
      try done.
    by apply (proj1 (Forall_forall _ _) Hrel).
  - apply NoDup_app. split.
    + unfold result_events. rewrite decide_False by done. constructor.
    + split; [|by apply IH].
      intros p (Hpos & _)%written_paths_result_events. done.
Qed.

(** X4: when the results with a non-empty augmented forest have pairwise
    distinct tags, none of which starts with a slash, [main] ends normally
    and never gives [to_csv] the same path twice: the tables of one result
    share no path with the tables of another result, with those of the
    other subfolder, or with the summary table. *)
Theorem main_never_writes_a_path_twice (cwd : string)
    (gs : string → string → gmap string pyval → list result) (inv : invocation) :
  let tags := reported_tags (gs (opt_edge inv) (opt_prize inv)
                                (params_of (parse_args inv))) in
  NoDup tags → Forall relative_tag tags →
  ∃ out, main cwd gs inv = Ok out ∧ NoDup (written_paths out).
Proof.
  intros tags Htags Hrel. eexists. split; [apply main_spec|].
  unfold write_summary. simpl.
  set (results := gs _ _ _) in *.
  pose proof (written_paths_loop_NoDup cwd (opt_output inv) (single_run inv)
                results Htags Hrel) as Hloop.
  destruct (summary_rows (single_run inv) results); [done|].
  rewrite written_paths_app. simpl. apply NoDup_app.
  split; [done|]. split; [|apply NoDup_singleton].
  intros p (tg & sub & _ & Hsub & Hp)%written_paths_loop ->%list_elem_of_singleton.
  by apply (summary_path_not_graph_file cwd (opt_output inv) (opt_output inv) sub tg).
Qed.

(** A run of three results with three tags. *)
Lemma main_never_writes_a_path_twice_witness :
  ∃ out, main sample_cwd three_cells bare_invocation = Ok out
         ∧ NoDup (written_paths out).
Proof.
  apply (main_never_writes_a_path_twice sample_cwd three_cells bare_invocation).
  - apply (bool_decide_unpack _). vm_compute. exact I.
  - repeat constructor.
Defined.
